(** * promptwire-tools: the JSON repair pipeline and the vendor handlers

    A shallow embedding of the three edge handlers of the repository
    (the Groq handler with its repair pipeline, and the two Gemini
    handlers) together with the properties stated about them.

    JavaScript strings are sequences of UTF-16 code units; a code unit is
    modelled as an [N] and a string as a list of code units.  Exceptions are
    modelled by an explicit completion type. *)

From Stdlib Require Import String Ascii.
From Stdlib Require Import List NArith ZArith Bool Lia.
Import ListNotations.

Local Open Scope N_scope.
Set Warnings "-register-all".

(** ** Code units and strings *)

Abbreviation char := N (only parsing).
Abbreviation jsstring := (list N) (only parsing).

Module Ch.
Definition tab : char := 9.
Definition lf : char := 10.
Definition cr : char := 13.
Definition space : char := 32.
Definition dquote : char := 34.
Definition comma : char := 44.
Definition colon : char := 58.
Definition lbracket : char := 91.
Definition backslash : char := 92.
Definition rbracket : char := 93.
Definition lbrace : char := 123.
Definition rbrace : char := 125.
Definition line_separator : char := 8232.      (* U+2028 *)
Definition paragraph_separator : char := 8233. (* U+2029 *)
End Ch.

(** Literals of this file are written with a backquote standing for the
    double quote character: [lit "{`a`: 1}"] is the text  {"a": 1}. *)
Definition lit_char (a : ascii) : char :=
  let n := N_of_ascii a in if n =? 96 then Ch.dquote else n.

Definition lit (s : string) : jsstring := map lit_char (list_ascii_of_string s).

(** ** extractJsonObject *)

(** The index of the first element that satisfies [p], counting from [i],
    or -1: the search loop of [indexOf] on strings and on arrays. *)
Fixpoint first_index {A} (p : A -> bool) (i : Z) (l : list A) : Z :=
  match l with
  | [] => (-1)%Z
  | x :: rest => if p x then i else first_index p (i + 1)%Z rest
  end.

(** The index of the last element that satisfies [p], or -1: [lastIndexOf]. *)
Fixpoint last_index {A} (p : A -> bool) (i : Z) (l : list A) : Z :=
  match l with
  | [] => (-1)%Z
  | x :: rest =>
      let later := last_index p (i + 1)%Z rest in
      if (later =? -1)%Z then (if p x then i else (-1)%Z) else later
  end.

(** [text.indexOf(c)] and [text.lastIndexOf(c)] for a one-character [c]. *)
Definition indexOf (text : jsstring) (c : char) : Z :=
  first_index (fun x => x =? c) 0%Z text.

Definition lastIndexOf (text : jsstring) (c : char) : Z :=
  last_index (fun x => x =? c) 0%Z text.

(** [String.prototype.slice(from, to)]: negative indices count from the end,
    both are clamped to the string. *)
Definition clamp_index (len k : Z) : Z :=
  if (k <? 0)%Z then Z.max (len + k) 0 else Z.min k len.

Definition slice {A} (text : list A) (from to : Z) : list A :=
  let len := Z.of_nat (length text) in
  let a := clamp_index len from in
  let b := clamp_index len to in
  firstn (Z.to_nat (Z.max (b - a) 0)) (skipn (Z.to_nat a) text).

(** [None] is the JavaScript [null]. *)
Definition extractJsonObject (text : jsstring) : option jsstring :=
  let start := indexOf text Ch.lbrace in
  let end_ := lastIndexOf text Ch.rbrace in
  if (start =? -1)%Z || (end_ =? -1)%Z || (end_ <=? start)%Z then None
  else Some (slice text start (end_ + 1)%Z).

(** ** sanitizeCommonBreakers *)

(** [s.replace(/c/g, by)] for a one-character pattern and a replacement
    text without dollar patterns. *)
Definition replace_char (c : char) (by_ : jsstring) (s : jsstring) : jsstring :=
  flat_map (fun x => if x =? c then by_ else [x]) s.

(** The class [\s] of an ECMAScript regular expression without the unicode
    flag: WhiteSpace and LineTerminator code units. *)
Definition is_space (c : char) : bool :=
  ((9 <=? c) && (c <=? 13)) || (c =? 32) || (c =? 160) || (c =? 5760)
  || ((8192 <=? c) && (c <=? 8202)) || (c =? 8232) || (c =? 8233)
  || (c =? 8239) || (c =? 8287) || (c =? 12288) || (c =? 65279).

(** The class [[}\]]]. *)
Definition is_closer (c : char) : bool := (c =? Ch.rbrace) || (c =? Ch.rbracket).

(** [\s*([}\]])] at the head of [s]: the greedy run of [\s] and then a
    closer; the result is the captured closer and the text after the match.
    No character of [\s] is a closer, so backtracking into the run never
    helps. *)
Fixpoint match_space_closer (s : jsstring) : option (char * jsstring) :=
  match s with
  | [] => None
  | c :: rest =>
      if is_space c then match_space_closer rest
      else if is_closer c then Some (c, rest)
      else None
  end.

(** [/,\s*([}\]])/] anchored at the head of [s]. *)
Definition match_trailing_comma (s : jsstring) : option (char * jsstring) :=
  match s with
  | c :: rest => if c =? Ch.comma then match_space_closer rest else None
  | [] => None
  end.

(** [s.replace(/,\s*([}\]])/g, "$1")]: at each position, from the left, a
    match is replaced by its captured closer and the scan goes on after the
    match; without a match one character is copied.  The fuel bounds the
    number of positions tried. *)
Fixpoint remove_trailing_commas_fuel (fuel : nat) (s : jsstring) : jsstring :=
  match fuel with
  | O => s
  | S fuel' =>
      match s with
      | [] => []
      | c :: rest =>
          match match_trailing_comma s with
          | Some (closer, after) => closer :: remove_trailing_commas_fuel fuel' after
          | None => c :: remove_trailing_commas_fuel fuel' rest
          end
      end
  end.

Definition remove_trailing_commas (s : jsstring) : jsstring :=
  remove_trailing_commas_fuel (length s) s.

Definition escaped_n : jsstring := [Ch.backslash; 110].
Definition escaped_t : jsstring := [Ch.backslash; 116].

Definition sanitizeCommonBreakers (s : jsstring) : jsstring :=
  remove_trailing_commas
    (replace_char Ch.paragraph_separator escaped_n
       (replace_char Ch.line_separator escaped_n s)).

(** ** escapeNewlinesInsideStrings *)

(** The three variables of the loop. *)
Record scanner := Scanner {
  out : jsstring;
  inString : bool;
  escaped : bool
}.

Definition scanner_init : scanner := Scanner [] false false.

(** One iteration of the loop on the code unit [ch]. *)
Definition scan_char (st : scanner) (ch : char) : scanner :=
  if inString st then
    if escaped st then Scanner (out st ++ [ch]) true false
    else if ch =? Ch.backslash then Scanner (out st ++ [ch]) true true
    else if ch =? Ch.dquote then Scanner (out st ++ [ch]) false (escaped st)
    else if ch =? Ch.lf then Scanner (out st ++ escaped_n) true (escaped st)
    else if ch =? Ch.cr then st
    else if ch =? Ch.tab then Scanner (out st ++ escaped_t) true (escaped st)
    else Scanner (out st ++ [ch]) true (escaped st)
  else
    if ch =? Ch.dquote then Scanner (out st ++ [ch]) true (escaped st)
    else Scanner (out st ++ [ch]) (inString st) (escaped st).

Definition scan (st : scanner) (s : jsstring) : scanner := fold_left scan_char s st.

Definition escapeNewlinesInsideStrings (jsonStr : jsstring) : jsstring :=
  out (scan scanner_init jsonStr).

(** ** JavaScript values and completions *)

(** The values that [JSON.parse] and [response.json()] produce, and
    [undefined].  A number is kept as its literal; of its conversion to a
    double only the test for zero is modelled.  An object is its list of
    properties in
    creation order; the order in which the host enumerates them is not
    modelled. *)
Inductive value :=
| VUndefined
| VNull
| VBool (b : bool)
| VNum (literal : jsstring)
| VStr (s : jsstring)
| VArr (items : list value)
| VObj (props : list (jsstring * value)).

(** A thrown exception, with the value of its [message] property. *)
Inductive exn := Exn (message : value).

(** The messages of the errors the engine itself raises are fixed by the
    engine; the model names them. *)
Definition SyntaxError : exn := Exn (VStr (lit "SyntaxError")).
Definition TypeError : exn := Exn (VStr (lit "TypeError")).

(** The outcome of evaluating an expression or awaiting a promise. *)
Inductive completion (A : Type) :=
| Normal (a : A)
| Throw (e : exn).
Arguments Normal {A} a.
Arguments Throw {A} e.

Definition bind {A B} (c : completion A) (k : A -> completion B) : completion B :=
  match c with
  | Normal a => k a
  | Throw e => Throw e
  end.

Notation "x <- c ;; k" := (bind c (fun x => k))
  (at level 61, c at next level, right associativity).

(** [try { c } catch (e) { h e }] *)
Definition try_catch {A} (c : completion A) (h : exn -> completion A) : completion A :=
  match c with
  | Normal a => Normal a
  | Throw e => h e
  end.

(** ** JSON.parse

    The strict parser of the host, modelled after the JSON grammar
    (ECMA-404): a tokenizer, then a parser of the token list. *)

Inductive token :=
| TLBrace | TRBrace | TLBracket | TRBracket | TColon | TComma
| TString (s : jsstring)
| TNumber (literal : jsstring)
| TTrue | TFalse | TNull.

Definition is_json_ws (c : char) : bool :=
  (c =? Ch.space) || (c =? Ch.tab) || (c =? Ch.lf) || (c =? Ch.cr).

Definition is_digit (c : char) : bool := (48 <=? c) && (c <=? 57).

Definition hex_value (c : char) : option N :=
  if (48 <=? c) && (c <=? 57) then Some (c - 48)
  else if (65 <=? c) && (c <=? 70) then Some (c - 55)
  else if (97 <=? c) && (c <=? 102) then Some (c - 87)
  else None.

(** The character denoted by a one-letter escape. *)
Definition simple_escape (c : char) : option char :=
  if c =? Ch.dquote then Some Ch.dquote
  else if c =? Ch.backslash then Some Ch.backslash
  else if c =? 47 then Some 47        (* solidus *)
  else if c =? 98 then Some 8         (* b *)
  else if c =? 102 then Some 12       (* f *)
  else if c =? 110 then Some Ch.lf    (* n *)
  else if c =? 114 then Some Ch.cr    (* r *)
  else if c =? 116 then Some Ch.tab   (* t *)
  else None.

(** The rest of a string literal, after its opening quote: the decoded
    characters (accumulated in reverse in [acc]) and the text after the
    closing quote.  Control characters below U+0020 are refused. *)
Fixpoint lex_string (s : jsstring) (acc : jsstring) : option (jsstring * jsstring) :=
  match s with
  | [] => None
  | c :: rest =>
      if c =? Ch.dquote then Some (rev acc, rest)
      else if c =? Ch.backslash then
        match rest with
        | [] => None
        | e :: rest1 =>
            if e =? 117 then                       (* u and four hex digits *)
              match rest1 with
              | h1 :: h2 :: h3 :: h4 :: rest2 =>
                  match hex_value h1, hex_value h2, hex_value h3, hex_value h4 with
                  | Some a, Some b, Some c', Some d =>
                      lex_string rest2 (((a * 16 + b) * 16 + c') * 16 + d :: acc)
                  | _, _, _, _ => None
                  end
              | _ => None
              end
            else
              match simple_escape e with
              | Some x => lex_string rest1 (x :: acc)
              | None => None
              end
        end
      else if c <? 32 then None
      else lex_string rest (c :: acc)
  end.

(** The longest run of digits at the head of [s], and the rest. *)
Fixpoint span_digits (s : jsstring) : jsstring * jsstring :=
  match s with
  | c :: rest =>
      if is_digit c then let (ds, r) := span_digits rest in (c :: ds, r)
      else ([], s)
  | [] => ([], [])
  end.

(** One or more digits. *)
Definition lex_digits1 (s : jsstring) : option (jsstring * jsstring) :=
  match span_digits s with
  | ([], _) => None
  | (ds, r) => Some (ds, r)
  end.

(** [0] or a digit from 1 to 9 followed by digits. *)
Definition lex_int (s : jsstring) : option (jsstring * jsstring) :=
  match s with
  | c :: rest =>
      if c =? 48 then Some ([c], rest)
      else if is_digit c then let (ds, r) := span_digits rest in Some (c :: ds, r)
      else None
  | [] => None
  end.

(** An optional fraction: a point and one or more digits. *)
Definition lex_frac (s : jsstring) : option (jsstring * jsstring) :=
  match s with
  | c :: rest =>
      if c =? 46 then
        match lex_digits1 rest with
        | Some (ds, r) => Some (c :: ds, r)
        | None => None
        end
      else Some ([], s)
  | [] => Some ([], s)
  end.

(** An optional exponent: e or E, an optional sign, one or more digits. *)
Definition lex_exp (s : jsstring) : option (jsstring * jsstring) :=
  match s with
  | c :: rest =>
      if (c =? 101) || (c =? 69) then
        match rest with
        | sg :: rest1 =>
            if (sg =? 43) || (sg =? 45) then
              match lex_digits1 rest1 with
              | Some (ds, r) => Some (c :: sg :: ds, r)
              | None => None
              end
            else
              match lex_digits1 rest with
              | Some (ds, r) => Some (c :: ds, r)
              | None => None
              end
        | [] => None
        end
      else Some ([], s)
  | [] => Some ([], s)
  end.

(** A number literal at the head of [s]: the literal and the rest. *)
Definition lex_number (s : jsstring) : option (jsstring * jsstring) :=
  let '(sign, s0) :=
    match s with
    | c :: rest => if c =? 45 then ([c], rest) else ([], s)
    | [] => ([], s)
    end in
  match lex_int s0 with
  | None => None
  | Some (i, s1) =>
      match lex_frac s1 with
      | None => None
      | Some (f, s2) =>
          match lex_exp s2 with
          | None => None
          | Some (e, s3) => Some (sign ++ i ++ f ++ e, s3)
          end
      end
  end.

(** [Some rest] when [s] is [p ++ rest]. *)
Fixpoint strip_prefix (p s : jsstring) : option jsstring :=
  match p, s with
  | [], _ => Some s
  | x :: p', y :: s' => if x =? y then strip_prefix p' s' else None
  | _ :: _, [] => None
  end.

Definition cons_token (t : token) (r : option (list token)) : option (list token) :=
  match r with
  | Some ts => Some (t :: ts)
  | None => None
  end.

Fixpoint tokenize_fuel (fuel : nat) (s : jsstring) : option (list token) :=
  match s with
  | [] => Some []
  | c :: rest =>
      match fuel with
      | O => None
      | S fuel' =>
          if is_json_ws c then tokenize_fuel fuel' rest
          else if c =? Ch.lbrace then cons_token TLBrace (tokenize_fuel fuel' rest)
          else if c =? Ch.rbrace then cons_token TRBrace (tokenize_fuel fuel' rest)
          else if c =? Ch.lbracket then cons_token TLBracket (tokenize_fuel fuel' rest)
          else if c =? Ch.rbracket then cons_token TRBracket (tokenize_fuel fuel' rest)
          else if c =? Ch.colon then cons_token TColon (tokenize_fuel fuel' rest)
          else if c =? Ch.comma then cons_token TComma (tokenize_fuel fuel' rest)
          else if c =? Ch.dquote then
            match lex_string rest [] with
            | Some (v, after) => cons_token (TString v) (tokenize_fuel fuel' after)
            | None => None
            end
          else if (c =? 45) || is_digit c then
            match lex_number s with
            | Some (l, after) => cons_token (TNumber l) (tokenize_fuel fuel' after)
            | None => None
            end
          else
            match strip_prefix (lit "true") s, strip_prefix (lit "false") s,
                  strip_prefix (lit "null") s with
            | Some after, _, _ => cons_token TTrue (tokenize_fuel fuel' after)
            | _, Some after, _ => cons_token TFalse (tokenize_fuel fuel' after)
            | _, _, Some after => cons_token TNull (tokenize_fuel fuel' after)
            | None, None, None => None
            end
      end
  end.

(** Every token takes at least one character, so the length of the text is
    fuel enough. *)
Definition tokenize (s : jsstring) : option (list token) :=
  tokenize_fuel (length s) s.

(** [a === b] on strings. *)
Fixpoint str_eqb (a b : jsstring) : bool :=
  match a, b with
  | [], [] => true
  | x :: a', y :: b' => (x =? y) && str_eqb a' b'
  | _, _ => false
  end.

(** [obj[k] = v] on a property list: an existing property keeps its place. *)
Fixpoint set_prop (props : list (jsstring * value)) (k : jsstring) (v : value)
  : list (jsstring * value) :=
  match props with
  | [] => [(k, v)]
  | (k', v') :: rest =>
      if str_eqb k' k then (k, v) :: rest else (k', v') :: set_prop rest k v
  end.

(** The object built from the members of an object literal, in order: a
    repeated key overwrites. *)
Definition make_object (members : list (jsstring * value)) : value :=
  VObj (fold_left (fun props m => set_prop props (fst m) (snd m)) members []).

Fixpoint parse_value (fuel : nat) (ts : list token) : option (value * list token) :=
  match fuel with
  | O => None
  | S f =>
      match ts with
      | TNull :: r => Some (VNull, r)
      | TTrue :: r => Some (VBool true, r)
      | TFalse :: r => Some (VBool false, r)
      | TNumber l :: r => Some (VNum l, r)
      | TString s :: r => Some (VStr s, r)
      | TLBracket :: TRBracket :: r => Some (VArr [], r)
      | TLBracket :: r =>
          match parse_elements f r with
          | Some (items, r') => Some (VArr items, r')
          | None => None
          end
      | TLBrace :: TRBrace :: r => Some (VObj [], r)
      | TLBrace :: r =>
          match parse_members f r with
          | Some (members, r') => Some (make_object members, r')
          | None => None
          end
      | _ => None
      end
  end
with parse_elements (fuel : nat) (ts : list token) : option (list value * list token) :=
  match fuel with
  | O => None
  | S f =>
      match parse_value f ts with
      | Some (v, TComma :: r) =>
          match parse_elements f r with
          | Some (vs, r') => Some (v :: vs, r')
          | None => None
          end
      | Some (v, TRBracket :: r) => Some ([v], r)
      | _ => None
      end
  end
with parse_members (fuel : nat) (ts : list token)
  : option (list (jsstring * value) * list token) :=
  match fuel with
  | O => None
  | S f =>
      match ts with
      | TString k :: TColon :: r =>
          match parse_value f r with
          | Some (v, TComma :: r') =>
              match parse_members f r' with
              | Some (ms, r'') => Some ((k, v) :: ms, r'')
              | None => None
              end
          | Some (v, TRBrace :: r') => Some ([(k, v)], r')
          | _ => None
          end
      | _ => None
      end
  end.

(** [JSON.parse(text)]: the value of a text that is exactly one JSON value
    between optional whitespace; a [SyntaxError] otherwise.  The parser
    spends at most two units of fuel for a token. *)
Definition JSON_parse (text : jsstring) : completion value :=
  match tokenize text with
  | None => Throw SyntaxError
  | Some ts =>
      match parse_value (2 * length ts + 2) ts with
      | Some (v, []) => Normal v
      | _ => Throw SyntaxError
      end
  end.

(** ** Operations on values *)

(** The value of a run of digits. *)
Definition digits_value (ds : jsstring) : N :=
  fold_left (fun acc d => acc * 10 + (d - 48)) ds 0.

(** A number literal as a decimal: its digits [m] (the integer part
    followed by the fraction) and the power of ten [e], the magnitude of
    the literal being [m * 10 ^ e]. *)
Definition literal_decimal (l : jsstring) : N * Z :=
  let l0 := match l with
            | c :: rest => if c =? 45 then rest else l
            | [] => l
            end in
  let '(i, r1) := span_digits l0 in
  let '(f, r2) := match r1 with
                  | c :: rest => if c =? 46 then span_digits rest else ([], r1)
                  | [] => ([], r1)
                  end in
  let e := match r2 with
           | c :: rest =>
               if (c =? 101) || (c =? 69) then
                 match rest with
                 | sg :: rest1 =>
                     if sg =? 45
                     then (- Z.of_N (digits_value (fst (span_digits rest1))))%Z
                     else if sg =? 43
                     then Z.of_N (digits_value (fst (span_digits rest1)))
                     else Z.of_N (digits_value (fst (span_digits rest)))
                 | [] => 0%Z
                 end
               else 0%Z
           | [] => 0%Z
           end in
  (digits_value (i ++ f), (e - Z.of_nat (length f))%Z).

(** The Number value of a literal is zero: the double nearest to a
    decimal (ties to even) is zero exactly when the magnitude of the
    decimal is at most 2 ^ -1075, half of the least positive double. *)
Definition is_zero_number (l : jsstring) : bool :=
  let '(m, e) := literal_decimal l in
  (m =? 0) || ((e <? 0)%Z && (m * 2 ^ 1075 <=? 10 ^ Z.to_N (- e))).
Arguments is_zero_number : simpl never.

(** ToBoolean. *)
Definition truthy (v : value) : bool :=
  match v with
  | VUndefined | VNull => false
  | VBool b => b
  | VNum l => negb (is_zero_number l)
  | VStr [] => false
  | VStr (_ :: _) => true
  | VArr _ | VObj _ => true
  end.

(** [a || b] *)
Definition or_else (a b : value) : value := if truthy a then a else b.

Fixpoint lookup (props : list (jsstring * value)) (k : jsstring) : option value :=
  match props with
  | [] => None
  | (k', v) :: rest => if str_eqb k' k then Some v else lookup rest k
  end.

(** [v.k] on a value that is neither [null] nor [undefined], for the
    property names the handlers read (system, messages, role, content,
    error, candidates, parts, text, choices, message): none of them is a
    property of a prototype, so only an object can have one. *)
Definition get_own (v : value) (k : jsstring) : value :=
  match v with
  | VObj props => match lookup props k with Some x => x | None => VUndefined end
  | _ => VUndefined
  end.

(** [v.k]: reading a property of [null] or [undefined] throws. *)
Definition get (v : value) (k : jsstring) : completion value :=
  match v with
  | VUndefined | VNull => Throw TypeError
  | _ => Normal (get_own v k)
  end.

(** [v?.k] *)
Definition opt_get (v : value) (k : jsstring) : value :=
  match v with
  | VUndefined | VNull => VUndefined
  | _ => get_own v k
  end.

(** [v?.[0]] *)
Definition opt_first (v : value) : value :=
  match v with
  | VArr (x :: _) => x
  | VStr (c :: _) => VStr [c]
  | VObj props => get_own v (lit "0")
  | _ => VUndefined
  end.

(** [v === "s"] *)
Definition is_string (s : jsstring) (v : value) : bool :=
  match v with
  | VStr s' => str_eqb s' s
  | _ => false
  end.

(** [items.find(m => m.role === 'user')] on the elements of an array. *)
Fixpoint find_user (items : list value) : completion value :=
  match items with
  | [] => Normal VUndefined
  | m :: rest =>
      role <- get m (lit "role") ;;
      if is_string (lit "user") role then Normal m else find_user rest
  end.

(** [messages.find(...)]: only an array has the method. *)
Definition messages_find_user (messages : value) : completion value :=
  match messages with
  | VArr items => find_user items
  | _ => Throw TypeError
  end.

(** [items.map(p => p.text || '')] on the elements of an array. *)
Fixpoint map_text (items : list value) : completion (list value) :=
  match items with
  | [] => Normal []
  | p :: rest =>
      t <- get p (lit "text") ;;
      ts <- map_text rest ;;
      Normal (or_else t (VStr []) :: ts)
  end.

(** ToString ends normally on [v].  An object made by [JSON.parse] that
    has a property [toString] of its own has no callable [toString] and
    its [valueOf] gives no primitive: the conversion throws a TypeError.
    The conversion of an array joins the conversions of its elements. *)
Fixpoint convertible (v : value) : bool :=
  match v with
  | VObj props =>
      match lookup props (lit "toString") with
      | Some _ => false
      | None => true
      end
  | VArr items => forallb convertible items
  | _ => true
  end.

(** ** HTTP responses *)

Record response := Response {
  status : Z;
  headers : list (jsstring * jsstring);
  body : option value  (* the value given to JSON.stringify; None for a null body *)
}.

Record request := Request {
  method : jsstring;
  json : completion value  (* the outcome of [await req.json()] *)
}.



Definition allow_origin : jsstring * jsstring :=
  (lit "Access-Control-Allow-Origin", lit "*").
Definition allow_methods : jsstring * jsstring :=
  (lit "Access-Control-Allow-Methods", lit "POST, OPTIONS").
Definition allow_headers : jsstring * jsstring :=
  (lit "Access-Control-Allow-Headers", lit "Content-Type").
Definition content_type_json : jsstring * jsstring :=
  (lit "Content-Type", lit "application/json").

(** [{ error: e }] *)
Definition error_body (e : value) : value := VObj [(lit "error", e)].

(** [{ content: [{ type: "text", text }] }] *)
Definition text_envelope (text : value) : value :=
  VObj [(lit "content",
         VArr [VObj [(lit "type", VStr (lit "text")); (lit "text", text)]])].

(** ** The handlers *)

Section Handlers.

(** The host: the text of the string conversion of a value that is not a
    string, where that conversion ends normally (template literals,
    [join]), [String(error)], and the vendor call
    [await fetch(url, { body: JSON.stringify(payload) })] followed by
    [await response.json()], which may throw.  The API key of the
    environment belongs to the host. *)
Variable ToString : value -> jsstring.
Variable String_of_exn : exn -> jsstring.
Variable fetch_json : jsstring -> value -> completion value.

(** ToString: a TypeError where the conversion throws; a string is its
    own conversion; the host gives the text of the other values. *)
Definition to_string (v : value) : completion jsstring :=
  if convertible v then
    Normal (match v with
            | VStr s => s
            | _ => ToString v
            end)
  else Throw TypeError.

(** [texts.join('')]: [null] and [undefined] elements count as empty, the
    others are converted in order. *)
Fixpoint join_empty (texts : list value) : completion jsstring :=
  match texts with
  | [] => Normal []
  | v :: rest =>
      s <- match v with
           | VUndefined | VNull => Normal []
           | _ => to_string v
           end ;;
      r <- join_empty rest ;;
      Normal (s ++ r)
  end.

(** *** src/api/gemini.js *)

Definition gemini_url : jsstring :=
  lit "https://generativelanguage.googleapis.com/v1beta/models/gemini-2.5-flash:generateContent".

Definition gemini_payload (fullPrompt : value) : value :=
  VObj [(lit "contents", VArr [VObj [(lit "parts", VArr [VObj [(lit "text", fullPrompt)]])]]);
        (lit "generationConfig",
         VObj [(lit "temperature", VNum (lit "0.8"));
               (lit "topP", VNum (lit "0.95"));
               (lit "maxOutputTokens", VNum (lit "4000"))])].

(** Lines 67-68: the text of a vendor response. *)
Definition gemini_text (data : value) : completion value :=
  candidates <- get data (lit "candidates") ;;
  let parts :=
    or_else (opt_get (opt_get (opt_first candidates) (lit "content")) (lit "parts"))
            (VArr []) in
  match parts with
  | VArr items =>
      texts <- map_text items ;;
      text <- join_empty texts ;;
      Normal (VStr text)
  | _ => Throw TypeError
  end.

(** Lines 25-85: the body of the [try]. *)
Definition gemini_try (req : request) : completion response :=
  body <- json req ;;
  system <- get body (lit "system") ;;
  messages <- get body (lit "messages") ;;
  found <- messages_find_user messages ;;
  let userMessage := or_else (opt_get found (lit "content")) (VStr []) in
  fullPrompt <-
    (if truthy system
     then s <- to_string system ;;
          u <- to_string userMessage ;;
          Normal (VStr (lit "SYSTEM INSTRUCTIONS:" ++ [Ch.lf] ++ s
                        ++ [Ch.lf; Ch.lf] ++ lit "USER REQUEST:" ++ [Ch.lf] ++ u))
     else Normal userMessage) ;;
  data <- fetch_json gemini_url (gemini_payload fullPrompt) ;;
  err <- get data (lit "error") ;;
  if truthy err then
    Normal (Response 400 [content_type_json; allow_origin] (Some (error_body err)))
  else
    text <- gemini_text data ;;
    Normal (Response 200 [content_type_json; allow_origin] (Some (text_envelope text))).

Definition gemini_handler (req : request) : completion response :=
  if str_eqb (method req) (lit "OPTIONS") then
    Normal (Response 200 [allow_origin; allow_methods; allow_headers] None)
  else if negb (str_eqb (method req) (lit "POST")) then
    Normal (Response 405 [content_type_json]
              (Some (error_body (VStr (lit "Method not allowed")))))
  else
    try_catch (gemini_try req)
      (fun error =>
         let 'Exn message := error in
         Normal (Response 500 [content_type_json; allow_origin]
                   (Some (error_body message)))).

(** *** src/unnamed/part_000: the earlier Gemini handler *)

Definition gemini0_url : jsstring :=
  lit "https://generativelanguage.googleapis.com/v1beta/models/gemini-2.0-flash:generateContent".

Definition gemini0_payload (fullPrompt : value) : value :=
  VObj [(lit "contents", VArr [VObj [(lit "parts", VArr [VObj [(lit "text", fullPrompt)]])]]);
        (lit "generationConfig",
         VObj [(lit "temperature", VNum (lit "0.7"));
               (lit "maxOutputTokens", VNum (lit "4000"))])].

(** Line 57: the text of a vendor response. *)
Definition gemini0_text (data : value) : completion value :=
  candidates <- get data (lit "candidates") ;;
  Normal (or_else
            (opt_get (opt_first (opt_get (opt_get (opt_first candidates) (lit "content"))
                                         (lit "parts")))
                     (lit "text"))
            (VStr [])).

Definition gemini0_try (req : request) : completion response :=
  body <- json req ;;
  system <- get body (lit "system") ;;
  messages <- get body (lit "messages") ;;
  found <- messages_find_user messages ;;
  let userMessage := or_else (opt_get found (lit "content")) (VStr []) in
  fullPrompt <-
    (if truthy system
     then s <- to_string system ;;
          u <- to_string userMessage ;;
          Normal (VStr (s ++ [Ch.lf; Ch.lf] ++ u))
     else Normal userMessage) ;;
  data <- fetch_json gemini0_url (gemini0_payload fullPrompt) ;;
  text <- gemini0_text data ;;
  err <- get data (lit "error") ;;
  if truthy err then
    Normal (Response 400 [content_type_json; allow_origin] (Some (error_body err)))
  else
    Normal (Response 200 [content_type_json; allow_origin] (Some (text_envelope text))).

Definition gemini0_handler (req : request) : completion response :=
  if str_eqb (method req) (lit "OPTIONS") then
    Normal (Response 200 [allow_origin; allow_methods; allow_headers] None)
  else if negb (str_eqb (method req) (lit "POST")) then
    Normal (Response 405 [content_type_json]
              (Some (error_body (VStr (lit "Method not allowed")))))
  else
    try_catch (gemini0_try req)
      (fun error =>
         let 'Exn message := error in
         Normal (Response 500 [content_type_json; allow_origin]
                   (Some (error_body message)))).

(** *** src/unnamed/part_001: the Groq handler *)

Definition groq_url : jsstring := lit "https://api.groq.com/openai/v1/chat/completions".

Definition final_requirements : jsstring :=
  lit "FINAL OUTPUT REQUIREMENTS:" ++ [Ch.lf]
  ++ lit "- Output ONLY valid JSON." ++ [Ch.lf]
  ++ lit "- Do NOT use the double quote character (`) inside post text. Use single quotes instead."
  ++ [Ch.lf]
  ++ lit "- Do NOT include trailing commas." ++ [Ch.lf]
  ++ lit "- Any line breaks inside JSON strings must be written as \n, not real newlines."
  ++ [Ch.lf].

Definition message_of (role content : value) : value :=
  VObj [(lit "role", role); (lit "content", content)].

(** Lines 104-117. *)
Definition groq_messages (system messages : value) : list value :=
  (if truthy system then [message_of (VStr (lit "system")) system] else [])
  ++ (match messages with VArr items => items | _ => [] end)
  ++ [message_of (VStr (lit "user")) (VStr final_requirements)].

Definition groq_payload (groqMessages : list value) : value :=
  VObj [(lit "model", VStr (lit "meta-llama/llama-4-maverick-17b-128e-instruct"));
        (lit "messages", VArr groqMessages);
        (lit "max_tokens", VNum (lit "5000"));
        (lit "temperature", VNum (lit "0.8"));
        (lit "top_p", VNum (lit "0.95"))].

(** The fallback of lines 179-189. *)
Definition fallback_response (rawText : value) : response :=
  Response 200 [content_type_json; allow_origin] (Some (text_envelope rawText)).

(** The success of lines 166-172. *)
Definition parsed_response (parsed : value) : response :=
  Response 200 [content_type_json; allow_origin] (Some parsed).

(** Lines 154-189 on a text [rawText]: the repair pipeline. *)
Definition repair_text (rawText : jsstring) : completion response :=
  match extractJsonObject rawText with
  | Some candidateJson =>
      if truthy (VStr candidateJson) then
        let cleaned :=
          escapeNewlinesInsideStrings (sanitizeCommonBreakers candidateJson) in
        try_catch
          (parsed <- JSON_parse cleaned ;;
           Normal (parsed_response parsed))
          (fun e => Normal (fallback_response (VStr rawText)))
      else Normal (fallback_response (VStr rawText))
  | None => Normal (fallback_response (VStr rawText))
  end.

(** Lines 154-189 on any value of [rawText].  An array has [indexOf],
    [lastIndexOf] and [slice] of its own but no [replace]; the other
    values that are not strings have no [indexOf]. *)
Definition repair_value (rawText : value) : completion response :=
  match rawText with
  | VStr text => repair_text text
  | VArr items =>
      let start := first_index (is_string [Ch.lbrace]) 0%Z items in
      let end_ := last_index (is_string [Ch.rbrace]) 0%Z items in
      if (start =? -1)%Z || (end_ =? -1)%Z || (end_ <=? start)%Z
      then Normal (fallback_response rawText)
      else Throw TypeError
  | _ => Throw TypeError
  end.

(** Lines 100-189: the body of the [try]. *)
Definition groq_try (req : request) : completion response :=
  body <- json req ;;
  let body' := or_else body (VObj []) in
  system <- get body' (lit "system") ;;
  messages <- get body' (lit "messages") ;;
  data <- fetch_json groq_url (groq_payload (groq_messages system messages)) ;;
  let err := opt_get data (lit "error") in
  if truthy err then
    Normal (Response 400 [content_type_json; allow_origin] (Some (error_body err)))
  else
    let rawText :=
      or_else (opt_get (opt_get (opt_first (opt_get data (lit "choices")))
                                (lit "message"))
                       (lit "content"))
              (VStr []) in
    repair_value rawText.

Definition groq_handler (req : request) : completion response :=
  if str_eqb (method req) (lit "OPTIONS") then
    Normal (Response 200 [allow_origin; allow_methods; allow_headers] None)
  else if negb (str_eqb (method req) (lit "POST")) then
    Normal (Response 405 [content_type_json; allow_origin]
              (Some (error_body (VStr (lit "Method not allowed")))))
  else
    try_catch (groq_try req)
      (fun error =>
         let 'Exn message := error in
         Normal (Response 500 [content_type_json; allow_origin]
                   (Some (error_body (or_else message (VStr (String_of_exn error))))))).

End Handlers.

(** ** Vocabulary of the properties *)

(** [i] is the index of the first (last) occurrence of [c] in [t]. *)
Definition first_occurrence (t : jsstring) (c : char) (i : nat) : Prop :=
  nth_error t i = Some c /\ forall k, (k < i)%nat -> nth_error t k <> Some c.

Definition last_occurrence (t : jsstring) (c : char) (j : nat) : Prop :=
  nth_error t j = Some c /\ forall k, (j < k)%nat -> nth_error t k <> Some c.

(** The text has no candidate: a brace is missing, or the last closing
    brace is not after the first opening one. *)
Definition no_candidate (t : jsstring) : Prop :=
  ~ In Ch.lbrace t \/ ~ In Ch.rbrace t \/
  exists i j, first_occurrence t Ch.lbrace i /\ last_occurrence t Ch.rbrace j
              /\ (j <= i)%nat.

(** A character of the class [\s] that the separator rule leaves alone:
    every whitespace character but U+2028 and U+2029, which the sanitizer
    has rewritten before its comma rule runs. *)
Definition plain_space (c : char) : Prop :=
  is_space c = true /\ c <> Ch.line_separator /\ c <> Ch.paragraph_separator.

(** The two separator rules of the sanitizer, before the comma rule. *)
Definition replace_separators (s : jsstring) : jsstring :=
  replace_char Ch.paragraph_separator escaped_n
    (replace_char Ch.line_separator escaped_n s).

(** The scanner with its flags kept and its output emptied: what the rest
    of the loop depends on. *)
Definition flags (st : scanner) : scanner := Scanner [] (inString st) (escaped st).

(** The characters of [s] that the loop reads outside a string (with
    [inString] false), in order, when it starts in the state [st]. *)
Fixpoint outside_from (st : scanner) (s : jsstring) : jsstring :=
  match s with
  | [] => []
  | ch :: rest =>
      (if inString st then [] else [ch]) ++ outside_from (scan_char st ch) rest
  end.

Definition outside_string (s : jsstring) : jsstring := outside_from scanner_init s.

(** The number of characters of [s] satisfying [p] that the loop reads raw
    inside a string (with [inString] true and [escaped] false). *)
Fixpoint count_raw (p : char -> bool) (st : scanner) (s : jsstring) : nat :=
  match s with
  | [] => 0
  | ch :: rest =>
      ((if inString st && negb (escaped st) && p ch then 1 else 0)
       + count_raw p (scan_char st ch) rest)%nat
  end.

Definition raw_cr (s : jsstring) : nat :=
  count_raw (fun c => c =? Ch.cr) scanner_init s.

Definition raw_lf_tab (s : jsstring) : nat :=
  count_raw (fun c => (c =? Ch.lf) || (c =? Ch.tab)) scanner_init s.

(** The texts of the examples: an object whose string holds a raw line
    feed, and one whose string holds two escaped double quotes. *)
Definition example_newline : jsstring :=
  lit "{`a`: `line1" ++ [Ch.lf] ++ lit "line2`}".

Definition example_quotes : jsstring := lit "{`a`: `he said \`hi\``}".

(** A string with a raw carriage return:  ["a<CR>b"] . *)
Definition example_cr : jsstring := lit "[`a" ++ [Ch.cr] ++ lit "b`]".

(** The scanner, outside a string, copies [l] and is outside a string
    again after it. *)
Definition copied (l : jsstring) : Prop :=
  forall o, scan (Scanner o false false) l = Scanner (o ++ l) false false.

(** What the tokenizer takes for a number or a literal name: a prefix [l]
    of [s] without a double quote, [after] being the rest. *)
Definition consumed (s l after : jsstring) : Prop :=
  s = l ++ after /\ ~ In Ch.dquote l.

(** The pattern of the comma rule occurs in [s]: a comma, whitespace only,
    and a closing brace or bracket. *)
Definition has_trailing_comma (s : jsstring) : Prop :=
  exists pre ws c post,
    s = pre ++ Ch.comma :: ws ++ c :: post
    /\ Forall (fun x => is_space x = true) ws /\ is_closer c = true.

(** The same, decided: the comma rule matches at some position of [s]. *)
Fixpoint trailing_comma_in (s : jsstring) : bool :=
  match s with
  | [] => false
  | _ :: rest =>
      match match_trailing_comma s with
      | Some _ => true
      | None => trailing_comma_in rest
      end
  end.

(** A valid JSON text whose string holds a comma and a closing brace:
    {"a": ",}"} . *)
Definition example_comma_in_string : jsstring := lit "{`a`: `,}`}".

(** A vendor response with the given parts, and a part with or without a
    text. *)
Definition vendor_data (parts : list value) : value :=
  VObj [(lit "candidates",
         VArr [VObj [(lit "content", VObj [(lit "parts", VArr parts)])]])].

Definition part_of (t : option jsstring) : value :=
  match t with
  | Some s => VObj [(lit "text", VStr s)]
  | None => VObj []
  end.


(** A request of the frontend, and a host whose vendor answers with two
    parts. *)
Definition post_request : request :=
  Request (lit "POST")
    (Normal (VObj [(lit "messages",
                    VArr [VObj [(lit "role", VStr (lit "user"));
                                (lit "content", VStr (lit "hi"))]])])).

Definition two_parts : value :=
  vendor_data [part_of (Some (lit "a")); part_of (Some (lit "b"))].

Definition two_parts_vendor (url : jsstring) (payload : value) : completion value :=
  Normal two_parts.


Definition no_vendor (url : jsstring) (payload : value) : completion value :=
  Throw TypeError.

Definition no_string {A} (x : A) : jsstring := [].







(** ** Vocabulary of the further properties *)

(** What the scanner writes for a character it reads raw inside a string. *)
Definition escape_raw_char (c : char) : jsstring :=
  if c =? Ch.lf then escaped_n
  else if c =? Ch.cr then []
  else if c =? Ch.tab then escaped_t
  else [c].

(** A string literal with the given raw body. *)
Definition string_literal (body : jsstring) : jsstring :=
  Ch.dquote :: body ++ [Ch.dquote].

(** A character the scanner can leave or repair inside a string literal:
    no quote, no backslash, and no control character but the line feed,
    the carriage return and the tab. *)
Definition repairable (c : char) : Prop :=
  c <> Ch.dquote /\ c <> Ch.backslash
  /\ (32 <= c \/ c = Ch.lf \/ c = Ch.cr \/ c = Ch.tab).

(** A character the comma rule never deletes: no comma, no whitespace. *)
Definition kept_by_comma_rule (c : char) : bool :=
  negb (c =? Ch.comma) && negb (is_space c).

(** The vendor answers [data], whatever it is asked. *)
Definition answers (fetch_json : jsstring -> value -> completion value)
  (data : value) : Prop :=
  forall url payload, fetch_json url payload = Normal data.


(** A POST request whose body reads as [body]. *)
Definition post_of (body : value) : request := Request (lit "POST") (Normal body).

(** A value with properties to read: neither [null] nor [undefined]. *)
Definition readable (v : value) : bool :=
  match v with
  | VUndefined | VNull => false
  | _ => true
  end.

(** [m.role === 'user'] on a readable [m]. *)
Definition has_role_user (m : value) : bool :=
  is_string (lit "user") (get_own m (lit "role")).

(** The raw text of the Groq handler (line 150): the content of the
    message of the first choice, or the empty string. *)
Definition groq_raw_text (data : value) : value :=
  or_else (opt_get (opt_get (opt_first (opt_get data (lit "choices")))
                            (lit "message"))
                   (lit "content"))
          (VStr []).

(** [data.candidates?.[0]?.content?.parts] on a readable [data]. *)
Definition gemini_parts (data : value) : value :=
  opt_get (opt_get (opt_first (get_own data (lit "candidates"))) (lit "content"))
          (lit "parts").

(** A value that is no string and no array: a number, a boolean or an
    object. *)
Definition no_text_no_array (v : value) : bool :=
  match v with
  | VNum _ | VBool _ | VObj _ => true
  | _ => false
  end.

(** A 500 answer with both headers and some error message. *)
Definition server_error (r : response) : Prop :=
  status r = 500%Z /\ headers r = [content_type_json; allow_origin]
  /\ exists msg, body r = Some (error_body msg).

(** The body of a chat request. *)
Definition chat (system : value) (messages : list value) : value :=
  VObj [(lit "system", system); (lit "messages", VArr messages)].

(** A message that the search for the user message reads and passes. *)
Definition other_role (m : value) : Prop :=
  readable m = true /\ has_role_user m = false.

(** What the sanitizer and then the scanner write for a character of the
    body of a string literal, and the character the strict parser reads
    back: a separator becomes a line feed. *)
Definition clean_raw_char (c : char) : jsstring :=
  if (c =? Ch.line_separator) || (c =? Ch.paragraph_separator) then escaped_n
  else escape_raw_char c.

Definition read_back (c : char) : char :=
  if (c =? Ch.line_separator) || (c =? Ch.paragraph_separator) then Ch.lf else c.



(** The content of the message of the first choice of a vendor answer. *)
Definition groq_content (data : value) : value :=
  opt_get (opt_get (opt_first (opt_get data (lit "choices"))) (lit "message"))
          (lit "content").

(** * Properties *)

(** ** First evaluations *)

Example extract_prose :
  extractJsonObject (lit "Here: {`a`: 1} done") = Some (lit "{`a`: 1}").
Proof. reflexivity. Qed.

Example extract_reversed : extractJsonObject (lit "} {") = None.
Proof. reflexivity. Qed.

Example sanitize_trailing :
  sanitizeCommonBreakers (lit "{`a`: [1, 2, ] , }") = lit "{`a`: [1, 2] }".
Proof. reflexivity. Qed.

Example escape_tab_cr :
  escapeNewlinesInsideStrings (lit "[`x" ++ [Ch.tab; Ch.cr; Ch.lf] ++ lit "y`]")
  = lit "[`x\t\ny`]".
Proof. reflexivity. Qed.

Example parse_nested :
  JSON_parse (lit " {`a`: [1, -2.5e3, true, null], `b`: {`c`: `xA\n`}, `a`: `z`} ")
  = Normal (VObj [(lit "a", VStr (lit "z"));
                  (lit "b", VObj [(lit "c", VStr (lit "xA" ++ [Ch.lf]))])]).
Proof. reflexivity. Qed.

Example parse_rejects_trailing_comma :
  JSON_parse (lit "{`a`: 1,}") = Throw SyntaxError.
Proof. reflexivity. Qed.

Example parse_rejects_raw_newline :
  JSON_parse (lit "[`a" ++ [Ch.lf] ++ lit "`]") = Throw SyntaxError.
Proof. reflexivity. Qed.

Example parse_rejects_leading_zero : JSON_parse (lit "[01]") = Throw SyntaxError.
Proof. reflexivity. Qed.

(** A number is falsy when its double is zero: a zero literal, and a
    literal of magnitude at most 2 ^ -1075, as 1e-400 and 2e-324; the
    least positive double 5e-324 and 3e-324, which rounds to it, are
    truthy. *)
Example number_truthiness :
  map (fun l => truthy (VNum (lit l)))
      ["0"; "-0"; "0.000"; "0e99"; "1e-400"; "2e-324"; "3e-324"; "5e-324";
       "0.1"; "-7"; "1E+2"]%string
  = [false; false; false; false; false; false; true; true; true; true; true].
Proof. reflexivity. Qed.

(** A value converts to a string unless it is an object with a property
    toString of its own, or an array with such an object in it. *)
Example conversion_to_string :
  map convertible
      [VNull; VNum (lit "1"); VObj [(lit "a", VNull)];
       VObj [(lit "toString", VNum (lit "1"))];
       VArr [VStr (lit "a"); VArr [VObj [(lit "toString", VNull)]]]]
  = [true; true; true; false; false].
Proof. reflexivity. Qed.

(** ** The extractor *)

Section Index.
Context {A : Type} (p : A -> bool).

Lemma first_index_none (l : list A) (i : Z) :
  (forall x, In x l -> p x = false) -> first_index p i l = (-1)%Z.
Proof.
  revert i; induction l as [|x l IH]; intros i H; simpl; [reflexivity|].
  rewrite (H x (or_introl eq_refl)). apply IH. intros y Hy. apply H. now right.
Qed.

Lemma first_index_found (pre post : list A) (x : A) (i : Z) :
  (forall y, In y pre -> p y = false) -> p x = true ->
  first_index p i (pre ++ x :: post) = (i + Z.of_nat (length pre))%Z.
Proof.
  revert i; induction pre as [|y pre IH]; intros i Hpre Hx; simpl.
  - rewrite Hx. lia.
  - rewrite (Hpre y (or_introl eq_refl)). rewrite IH; [lia| |assumption].
    intros z Hz. apply Hpre. now right.
Qed.

Lemma last_index_none (l : list A) (i : Z) :
  (forall x, In x l -> p x = false) -> last_index p i l = (-1)%Z.
Proof.
  revert i; induction l as [|x l IH]; intros i H; simpl; [reflexivity|].
  rewrite IH by (intros y Hy; apply H; now right). simpl.
  now rewrite (H x (or_introl eq_refl)).
Qed.

Lemma last_index_found (pre post : list A) (x : A) (i : Z) :
  (0 <= i)%Z -> (forall y, In y post -> p y = false) -> p x = true ->
  last_index p i (pre ++ x :: post) = (i + Z.of_nat (length pre))%Z.
Proof.
  revert i; induction pre as [|y pre IH]; intros i Hi Hpost Hx; simpl.
  - rewrite last_index_none by assumption. simpl. rewrite Hx. lia.
  - rewrite IH by (try assumption; lia).
    destruct (Z.eqb_spec (i + 1 + Z.of_nat (length pre)) (-1)); lia.
Qed.

(** A list either has no element satisfying [p], or splits at the first
    one, and likewise at the last one. *)
Lemma split_first (l : list A) :
  (forall x, In x l -> p x = false) \/
  exists pre x post, l = pre ++ x :: post /\ p x = true /\
                     forall y, In y pre -> p y = false.
Proof.
  induction l as [|a l IH].
  - left. intros x [].
  - destruct (p a) eqn:Ha.
    + right. exists [], a, l. repeat split; [assumption | intros y []].
    + destruct IH as [IH | (pre & x & post & -> & Hx & Hpre)].
      * left. intros x [<- | Hx]; auto.
      * right. exists (a :: pre), x, post. repeat split; [assumption|].
        intros y [<- | Hy]; auto.
Qed.

Lemma split_last (l : list A) :
  (forall x, In x l -> p x = false) \/
  exists pre x post, l = pre ++ x :: post /\ p x = true /\
                     forall y, In y post -> p y = false.
Proof.
  induction l as [|a l IH].
  - left. intros x [].
  - destruct IH as [IH | (pre & x & post & -> & Hx & Hpost)].
    + destruct (p a) eqn:Ha.
      * right. exists [], a, l. repeat split; assumption.
      * left. intros x [<- | Hx]; auto.
    + right. exists (a :: pre), x, post. repeat split; assumption.
Qed.
End Index.

Lemma slice_middle {A} (pre mid post : list A) :
  slice (pre ++ mid ++ post) (Z.of_nat (length pre))
        (Z.of_nat (length pre + length mid)) = mid.
Proof.
  unfold slice, clamp_index.
  rewrite !length_app.
  destruct (Z.ltb_spec (Z.of_nat (length pre)) 0); [lia|].
  destruct (Z.ltb_spec (Z.of_nat (length pre + length mid)) 0); [lia|].
  rewrite !Z.min_l by lia.
  rewrite Nat2Z.id.
  replace (Z.to_nat _) with (length mid) by lia.
  rewrite skipn_app, skipn_all, Nat.sub_diag. simpl.
  rewrite firstn_app, firstn_all, Nat.sub_diag. simpl. apply app_nil_r.
Qed.

Lemma eqb_char_false_notin (c : char) (l : jsstring) :
  (forall x, In x l -> (x =? c) = false) <-> ~ In c l.
Proof.
  split.
  - intros H Hin. specialize (H c Hin). rewrite N.eqb_refl in H. discriminate.
  - intros H x Hx. apply N.eqb_neq. intros ->. contradiction.
Qed.

Lemma nth_error_middle (pre post : jsstring) (c : char) :
  nth_error (pre ++ c :: post) (length pre) = Some c.
Proof. rewrite nth_error_app2, Nat.sub_diag by lia. reflexivity. Qed.

Lemma first_occurrence_split (pre post : jsstring) (c : char) :
  ~ In c pre -> first_occurrence (pre ++ c :: post) c (length pre).
Proof.
  intros H. split; [apply nth_error_middle|].
  intros k Hk E. rewrite nth_error_app1 in E by assumption.
  apply nth_error_In in E. contradiction.
Qed.

Lemma last_occurrence_split (pre post : jsstring) (c : char) :
  ~ In c post -> last_occurrence (pre ++ c :: post) c (length pre).
Proof.
  intros H. split; [apply nth_error_middle|].
  intros k Hk E. rewrite nth_error_app2 in E by lia.
  destruct (k - length pre)%nat as [|m] eqn:Ek; [lia|]. simpl in E.
  apply nth_error_In in E. contradiction.
Qed.

Lemma first_occurrence_unique (t : jsstring) (c : char) (i i' : nat) :
  first_occurrence t c i -> first_occurrence t c i' -> i = i'.
Proof.
  intros [H1 H2] [H1' H2'].
  destruct (Nat.lt_trichotomy i i') as [L | [E | L]]; [|assumption|].
  - now apply H2' in L.
  - now apply H2 in L.
Qed.

Lemma last_occurrence_unique (t : jsstring) (c : char) (j j' : nat) :
  last_occurrence t c j -> last_occurrence t c j' -> j = j'.
Proof.
  intros [H1 H2] [H1' H2'].
  destruct (Nat.lt_trichotomy j j') as [L | [E | L]]; [|assumption|].
  - now apply H2 in L.
  - now apply H2' in L.
Qed.

(** What the extractor computes, by cases on the two searches. *)
Lemma extractJsonObject_cases (t : jsstring) :
  (no_candidate t /\ extractJsonObject t = None) \/
  (~ no_candidate t /\
   exists pre mid post,
     t = pre ++ Ch.lbrace :: mid ++ Ch.rbrace :: post /\
     ~ In Ch.lbrace pre /\ ~ In Ch.rbrace post /\
     extractJsonObject t = Some (Ch.lbrace :: mid ++ [Ch.rbrace])).
Proof.
  unfold extractJsonObject, indexOf, lastIndexOf.
  destruct (split_first (fun x => x =? Ch.lbrace) t)
    as [Hno | (pre & x & post & E1 & Hx & Hpre)].
  { left. rewrite first_index_none by assumption. simpl.
    split; [|reflexivity]. left. now apply eqb_char_false_notin. }
  apply N.eqb_eq in Hx; subst x.
  destruct (split_last (fun x => x =? Ch.rbrace) t)
    as [Hno | (pre' & x & post' & E2 & Hx & Hpost)].
  { left. rewrite (last_index_none _ t) by assumption.
    rewrite orb_true_r. simpl.
    split; [|reflexivity]. right; left. now apply eqb_char_false_notin. }
  apply N.eqb_eq in Hx; subst x.
  apply eqb_char_false_notin in Hpre, Hpost.
  assert (F : first_occurrence t Ch.lbrace (length pre))
    by (rewrite E1; now apply first_occurrence_split).
  assert (L : last_occurrence t Ch.rbrace (length pre'))
    by (rewrite E2; now apply last_occurrence_split).
  assert (S : first_index (fun x => x =? Ch.lbrace) 0%Z t = Z.of_nat (length pre)).
  { rewrite E1. rewrite first_index_found; [lia | | apply N.eqb_refl].
    now apply eqb_char_false_notin. }
  assert (En : last_index (fun x => x =? Ch.rbrace) 0%Z t = Z.of_nat (length pre')).
  { rewrite E2. rewrite last_index_found; [lia | lia | | apply N.eqb_refl].
    now apply eqb_char_false_notin. }
  rewrite S, En.
  destruct (Z.eqb_spec (Z.of_nat (length pre)) (-1)) as [|_]; [lia|].
  destruct (Z.eqb_spec (Z.of_nat (length pre')) (-1)) as [|_]; [lia|].
  simpl orb.
  destruct (Z.leb_spec (Z.of_nat (length pre')) (Z.of_nat (length pre)))
    as [Hle | Hlt].
  - left. split; [|reflexivity]. right; right.
    exists (length pre), (length pre'). repeat split; try apply F; try apply L. lia.
  - right.
    assert (Hmid : exists mid, pre' = pre ++ Ch.lbrace :: mid).
    { assert (E : pre ++ Ch.lbrace :: post = pre' ++ Ch.rbrace :: post') 
        by (transitivity t; [symmetry; exact E1 | exact E2]).
      apply app_eq_app in E. destruct E as (l & [[-> E] | [-> E]]).
      - destruct l as [|a l]; simpl in E.
        + discriminate.
        + rewrite length_app in Hlt. simpl in Hlt. lia.
      - destruct l as [|a l]; simpl in E.
        + discriminate.
        + injection E as <- _. now exists l. }
    destruct Hmid as (mid & ->).
    split.
    + intros [H | [H | (i & j & Hi & Hj & Hij)]].
      * apply H. rewrite E1. apply in_elt.
      * apply H. rewrite E2. apply in_elt.
      * rewrite (first_occurrence_unique _ _ _ _ Hi F) in Hij.
        rewrite (last_occurrence_unique _ _ _ _ Hj L) in Hij. lia.
    + exists pre, mid, post'. repeat split; try assumption.
      * rewrite E2, <- app_assoc. reflexivity.
      * f_equal.
        rewrite E2.
        transitivity
          (slice (pre ++ (Ch.lbrace :: mid ++ [Ch.rbrace]) ++ post')
                 (Z.of_nat (length pre))
                 (Z.of_nat (length pre + length (Ch.lbrace :: mid ++ [Ch.rbrace]))));
          [| apply slice_middle].
        f_equal.
        -- rewrite <- !app_assoc. simpl. rewrite <- app_assoc. reflexivity.
        -- rewrite !length_app. simpl. rewrite length_app. simpl. lia.
Qed.

(** C5.  The extractor returns no candidate exactly when the text has no
    opening brace, or no closing brace, or its last closing brace is at an
    index not greater than that of its first opening brace; in every other
    case it returns the substring from the first opening brace through the
    last closing brace, both included. *)
Theorem extractJsonObject_spec (t : jsstring) :
  (extractJsonObject t = None <-> no_candidate t) /\
  (~ no_candidate t ->
   exists pre mid post,
     t = pre ++ Ch.lbrace :: mid ++ Ch.rbrace :: post /\
     ~ In Ch.lbrace pre /\ ~ In Ch.rbrace post /\
     extractJsonObject t = Some (Ch.lbrace :: mid ++ [Ch.rbrace])).
Proof.
  destruct (extractJsonObject_cases t)
    as [[Hn E] | [Hn (pre & mid & post & Et & H1 & H2 & E)]].
  - split; [tauto|]. intros H; contradiction.
  - split.
    + rewrite E. split; [discriminate | intros; contradiction].
    + intros _. now exists pre, mid, post.
Qed.

(** ** The sanitizer *)

Lemma match_space_closer_shorter (s : jsstring) (c : char) (after : jsstring) :
  match_space_closer s = Some (c, after) -> (length after < length s)%nat.
Proof.
  induction s as [|x s IH]; simpl; [discriminate|].
  destruct (is_space x).
  - intros H. apply IH in H. lia.
  - destruct (is_closer x); [|discriminate].
    intros H. injection H as _ <-. lia.
Qed.

Lemma match_trailing_comma_shorter (s : jsstring) (c : char) (after : jsstring) :
  match_trailing_comma s = Some (c, after) -> (S (length after) < length s)%nat.
Proof.
  destruct s as [|x s]; simpl; [discriminate|].
  destruct (x =? Ch.comma); [|discriminate].
  intros H. apply match_space_closer_shorter in H. lia.
Qed.

(** Fuel beyond the length of the text changes nothing. *)
Lemma remove_trailing_commas_fuel_enough (f1 f2 : nat) (s : jsstring) :
  (length s <= f1)%nat -> (length s <= f2)%nat ->
  remove_trailing_commas_fuel f1 s = remove_trailing_commas_fuel f2 s.
Proof.
  revert f2 s; induction f1 as [|f1 IH]; intros f2 s H1 H2.
  - destruct s; [|simpl in H1; lia]. destruct f2; reflexivity.
  - destruct f2 as [|f2].
    + destruct s; [reflexivity | simpl in H2; lia].
    + simpl. destruct s as [|c rest]; [reflexivity|].
      destruct (match_trailing_comma (c :: rest)) as [[closer after]|] eqn:E.
      * apply match_trailing_comma_shorter in E. simpl in *.
        f_equal. apply IH; lia.
      * simpl in *. f_equal. apply IH; lia.
Qed.

(** The equations of the global replacement. *)
Lemma remove_trailing_commas_nil : remove_trailing_commas [] = [].
Proof. reflexivity. Qed.

Lemma remove_trailing_commas_cons (c : char) (rest : jsstring) :
  remove_trailing_commas (c :: rest) =
  match match_trailing_comma (c :: rest) with
  | Some (closer, after) => closer :: remove_trailing_commas after
  | None => c :: remove_trailing_commas rest
  end.
Proof.
  unfold remove_trailing_commas at 1.
  change (length (c :: rest)) with (S (length rest)).
  cbn [remove_trailing_commas_fuel].
  destruct (match_trailing_comma (c :: rest)) as [[closer after]|] eqn:E.
  - apply match_trailing_comma_shorter in E. simpl in E.
    f_equal. apply remove_trailing_commas_fuel_enough; lia.
  - reflexivity.
Qed.

Lemma closer_not_space (c : char) : is_closer c = true -> is_space c = false.
Proof.
  unfold is_closer. intros H. apply orb_true_iff in H.
  destruct H as [H | H]; apply N.eqb_eq in H; subst c; reflexivity.
Qed.

Lemma match_space_closer_run (ws : jsstring) (c : char) (post : jsstring) :
  Forall (fun x => is_space x = true) ws -> is_closer c = true ->
  match_space_closer (ws ++ c :: post) = Some (c, post).
Proof.
  intros Hws Hc. induction Hws as [|x ws Hx _ IH]; simpl.
  - now rewrite (closer_not_space c Hc), Hc.
  - now rewrite Hx.
Qed.

(** A match of [\s*([}\]])] is a run of whitespace and a closer. *)
Lemma match_space_closer_inv (s : jsstring) (c : char) (after : jsstring) :
  match_space_closer s = Some (c, after) ->
  exists ws, s = ws ++ c :: after /\ Forall (fun x => is_space x = true) ws
             /\ is_closer c = true.
Proof.
  induction s as [|x s IH]; simpl; [discriminate|].
  destruct (is_space x) eqn:Hx.
  - intros H. destruct (IH H) as (ws & -> & Hws & Hc).
    exists (x :: ws). repeat split; [constructor|]; assumption.
  - destruct (is_closer x) eqn:Hc; [|discriminate].
    intros H. injection H as <- <-. exists []. repeat split; [constructor | assumption].
Qed.

(** A comma stops a match that started before it. *)
Lemma match_space_closer_before_comma (pre rest : jsstring) :
  match_space_closer (pre ++ Ch.comma :: rest) =
  match match_space_closer pre with
  | Some (c, after) => Some (c, after ++ Ch.comma :: rest)
  | None => None
  end.
Proof.
  induction pre as [|x pre IH]; simpl; [reflexivity|].
  destruct (is_space x); [assumption|].
  destruct (is_closer x); reflexivity.
Qed.

(** The comma rule works on each side of a trailing comma apart, and
    replaces the comma, the whitespace and the closer by the closer. *)
Lemma remove_trailing_commas_at (pre ws : jsstring) (c : char) (post : jsstring) :
  Forall (fun x => is_space x = true) ws -> is_closer c = true ->
  remove_trailing_commas (pre ++ Ch.comma :: ws ++ c :: post)
  = remove_trailing_commas pre ++ c :: remove_trailing_commas post.
Proof.
  intros Hws Hc.
  remember (length pre) as n eqn:Hn.
  revert pre Hn. induction n as [n IH] using lt_wf_ind. intros pre Hn.
  destruct pre as [|a pre].
  - simpl. rewrite remove_trailing_commas_cons. simpl.
    now rewrite match_space_closer_run.
  - simpl app. rewrite !remove_trailing_commas_cons. simpl match_trailing_comma.
    destruct (a =? Ch.comma).
    + rewrite match_space_closer_before_comma.
      destruct (match_space_closer pre) as [[closer after]|] eqn:E.
      * apply match_space_closer_shorter in E. simpl. f_equal.
        apply (IH (length after)); [simpl in Hn; lia | reflexivity].
      * simpl. f_equal. apply (IH (length pre)); [simpl in Hn; lia | reflexivity].
    + simpl. f_equal. apply (IH (length pre)); [simpl in Hn; lia | reflexivity].
Qed.

Lemma replace_char_app (c : char) (by_ a b : jsstring) :
  replace_char c by_ (a ++ b) = replace_char c by_ a ++ replace_char c by_ b.
Proof. apply flat_map_app. Qed.

Lemma replace_char_absent (c : char) (by_ s : jsstring) :
  ~ In c s -> replace_char c by_ s = s.
Proof.
  induction s as [|x s IH]; intros H; simpl; [reflexivity|].
  destruct (N.eqb_spec x c) as [-> | _].
  - exfalso. apply H. now left.
  - simpl. f_equal. apply IH. intros Hin. apply H. now right.
Qed.

Lemma replace_separators_app (a b : jsstring) :
  replace_separators (a ++ b) = replace_separators a ++ replace_separators b.
Proof. unfold replace_separators. now rewrite !replace_char_app. Qed.

Lemma replace_separators_plain (ws : jsstring) :
  Forall plain_space ws -> replace_separators ws = ws.
Proof.
  intros H. unfold replace_separators.
  rewrite (replace_char_absent Ch.line_separator).
  - apply replace_char_absent. intros Hin.
    rewrite Forall_forall in H. now destruct (H _ Hin) as (_ & _ & Hp).
  - intros Hin. rewrite Forall_forall in H. now destruct (H _ Hin) as (_ & Hl & _).
Qed.

Lemma sanitize_unfold (s : jsstring) :
  sanitizeCommonBreakers s = remove_trailing_commas (replace_separators s).
Proof. reflexivity. Qed.

(** A separator between a comma and a closer is rewritten first, and the
    comma then stays. *)
Example sanitize_separator_before_closer :
  sanitizeCommonBreakers [Ch.comma; Ch.line_separator; Ch.rbrace]
  = [Ch.comma; Ch.backslash; 110; Ch.rbrace].
Proof. reflexivity. Qed.

Example sanitize_separator_in_string :
  sanitizeCommonBreakers (lit "{`a`: `x" ++ [Ch.line_separator] ++ lit "y`}")
  = lit "{`a`: `x\ny`}".
Proof. reflexivity. Qed.

Lemma replace_separators_closer (c : char) :
  is_closer c = true -> replace_separators [c] = [c].
Proof.
  unfold is_closer. intros Hc. apply orb_true_iff in Hc.
  destruct Hc as [H | H]; apply N.eqb_eq in H; subst c; reflexivity.
Qed.

(** The comma rule, on the text it receives: a comma, whitespace of the
    class [\s] and a closer are replaced by the closer, and the text on
    each side is treated apart. *)
Lemma sanitize_comma_rule (s pre ws : jsstring) (c : char) (post : jsstring) :
  Forall (fun x => is_space x = true) ws -> is_closer c = true ->
  replace_separators s = pre ++ Ch.comma :: ws ++ c :: post ->
  sanitizeCommonBreakers s
  = remove_trailing_commas pre ++ c :: remove_trailing_commas post.
Proof.
  intros Hws Hc E. rewrite sanitize_unfold, E. now apply remove_trailing_commas_at.
Qed.

(** U+2028 is whitespace of the class [\s], yet the comma before it stays:
    the separator rules run first and turn it into a backslash and an n,
    which are no whitespace when the comma rule runs.  So  {"a": 1,<U+2028>}
    keeps its comma, and the strict parser rejects the result. *)
Lemma sanitize_keeps_comma_before_separator :
  is_space Ch.line_separator = true
  /\ is_closer Ch.rbrace = true
  /\ sanitizeCommonBreakers (lit "{`a`: 1," ++ [Ch.line_separator] ++ lit "}")
     = lit "{`a`: 1,\n}"
  /\ sanitizeCommonBreakers (lit "[1," ++ [Ch.paragraph_separator] ++ lit "]")
     = lit "[1,\n]"
  /\ JSON_parse (escapeNewlinesInsideStrings
                   (sanitizeCommonBreakers
                      (lit "{`a`: 1," ++ [Ch.line_separator] ++ lit "}")))
     = Throw SyntaxError.
Proof. repeat split; reflexivity. Qed.

(** C6 (as the code has it).  The sanitizer removes every comma of its
    input that is followed only by whitespace other than U+2028 and U+2029
    and then by a closing brace or bracket: the comma and the whitespace
    go, the closer stays, and the text on each side is sanitized apart.
    On the text  {"a": 1,}  the result is  {"a": 1}. *)
Theorem sanitize_removes_trailing_comma
  (pre ws : jsstring) (c : char) (post : jsstring) :
  Forall plain_space ws -> is_closer c = true ->
  sanitizeCommonBreakers (pre ++ Ch.comma :: ws ++ c :: post)
  = sanitizeCommonBreakers pre ++ c :: sanitizeCommonBreakers post
  /\ sanitizeCommonBreakers (lit "{`a`: 1,}") = lit "{`a`: 1}".
Proof.
  intros Hplain Hc. split; [|reflexivity].
  assert (Hws : Forall (fun x => is_space x = true) ws).
  { eapply Forall_impl; [|exact Hplain]. intros x Hx. apply Hx. }
  rewrite !sanitize_unfold.
  change (pre ++ Ch.comma :: ws ++ c :: post)
    with (pre ++ [Ch.comma] ++ ws ++ [c] ++ post).
  rewrite !replace_separators_app, (replace_separators_plain ws Hplain).
  rewrite (replace_separators_closer c Hc).
  change (replace_separators [Ch.comma]) with [Ch.comma].
  now apply remove_trailing_commas_at.
Qed.

Lemma sanitize_removes_trailing_comma_witness :
  sanitizeCommonBreakers (lit "[1, 2" ++ Ch.comma :: [Ch.space; Ch.lf] ++ Ch.rbracket :: lit " ")
  = sanitizeCommonBreakers (lit "[1, 2") ++ Ch.rbracket :: sanitizeCommonBreakers (lit " ")
  /\ sanitizeCommonBreakers (lit "{`a`: 1,}") = lit "{`a`: 1}".
Proof.
  apply (sanitize_removes_trailing_comma (lit "[1, 2") [Ch.space; Ch.lf]
           Ch.rbracket (lit " ")).
  - repeat constructor; discriminate.
  - reflexivity.
Defined.

(** ** The scanner *)

Lemma scan_app (st : scanner) (a b : jsstring) :
  scan st (a ++ b) = scan (scan st a) b.
Proof. apply fold_left_app. Qed.

(** An iteration only appends to [out], and what it does depends on the
    flags alone. *)
Lemma scan_char_out (st : scanner) (ch : char) :
  scan_char st ch =
  Scanner (out st ++ out (scan_char (flags st) ch))
          (inString (scan_char (flags st) ch))
          (escaped (scan_char (flags st) ch)).
Proof.
  destruct st as [o i e]. unfold scan_char, flags. simpl.
  destruct i, e; simpl; try reflexivity;
    repeat (match goal with |- context [if ?b then _ else _] => destruct b end;
            simpl; rewrite ?app_nil_r; try reflexivity).
Qed.

Lemma scan_out (st : scanner) (s : jsstring) :
  scan st s =
  Scanner (out st ++ out (scan (flags st) s))
          (inString (scan (flags st) s))
          (escaped (scan (flags st) s)).
Proof.
  revert st. induction s as [|ch s IH]; intros st.
  - destruct st. simpl. now rewrite app_nil_r.
  - simpl. rewrite IH. rewrite (IH (scan_char (flags st) ch)).
    rewrite (scan_char_out st ch). simpl.
    unfold flags at 1 3 5. simpl.
    now rewrite app_assoc.
Qed.

Lemma flags_flags (st : scanner) : flags (flags st) = flags st.
Proof. reflexivity. Qed.

Lemma escape_app (a b : jsstring) :
  escapeNewlinesInsideStrings (a ++ b)
  = escapeNewlinesInsideStrings a ++ out (scan (flags (scan scanner_init a)) b).
Proof.
  unfold escapeNewlinesInsideStrings. rewrite scan_app.
  now rewrite (scan_out (scan scanner_init a) b).
Qed.

Lemma flags_eq (st : scanner) (i e : bool) :
  inString st = i -> escaped st = e -> flags st = Scanner [] i e.
Proof. intros <- <-. reflexivity. Qed.

(** Scanning again what one iteration appended, from the flags it started
    with, appends the same and ends with the same flags. *)
Lemma rescan_step (i e : bool) (ch : char) :
  scan (Scanner [] i e) (out (scan_char (Scanner [] i e) ch))
  = scan_char (Scanner [] i e) ch.
Proof.
  destruct i, e; unfold scan_char; simpl;
    repeat (match goal with
            | |- context [if ?b then _ else _] =>
                match b with context [ch] => destruct b eqn:? end
            end; simpl);
    unfold scan_char; simpl;
    repeat match goal with H : _ = _ |- _ => rewrite H end; reflexivity.
Qed.

Lemma rescan (st : scanner) (s : jsstring) :
  scan (flags st) (out (scan (flags st) s)) = scan (flags st) s.
Proof.
  revert st. induction s as [|ch s IH]; intros st; [reflexivity|].
  simpl scan at 2 3. fold (scan (scan_char (flags st) ch) s).
  rewrite (scan_out (scan_char (flags st) ch) s). simpl out.
  rewrite scan_app. unfold flags at 1 2. rewrite rescan_step.
  fold (flags st).
  rewrite (scan_out (scan_char (flags st) ch)
             (out (scan (flags (scan_char (flags st) ch)) s))).
  now rewrite IH.
Qed.

(** C10.  The scanner is idempotent: a second pass over its own output
    changes nothing. *)
Theorem escape_idempotent (s : jsstring) :
  escapeNewlinesInsideStrings (escapeNewlinesInsideStrings s)
  = escapeNewlinesInsideStrings s.
Proof.
  unfold escapeNewlinesInsideStrings.
  change scanner_init with (flags scanner_init).
  now rewrite rescan.
Qed.

(** C3.  Inside a string and not after a backslash, a raw line feed is
    replaced by the two characters backslash and n: in one iteration, and
    so in the output for every text read up to such a position.  The text
    {"a": "line1<LF>line2"}  becomes  {"a": "line1\nline2"} , which the
    strict parser accepts. *)
Theorem escape_raw_newline (st : scanner) (pre post : jsstring) :
  inString st = true -> escaped st = false ->
  inString (scan scanner_init pre) = true ->
  escaped (scan scanner_init pre) = false ->
  scan_char st Ch.lf = Scanner (out st ++ [Ch.backslash; 110]) true false
  /\ escapeNewlinesInsideStrings (pre ++ Ch.lf :: post)
     = escapeNewlinesInsideStrings pre ++ [Ch.backslash; 110]
       ++ out (scan (Scanner [] true false) post)
  /\ escapeNewlinesInsideStrings example_newline = lit "{`a`: `line1\nline2`}"
  /\ JSON_parse (escapeNewlinesInsideStrings example_newline)
     = Normal (VObj [(lit "a", VStr (lit "line1" ++ [Ch.lf] ++ lit "line2"))]).
Proof.
  intros Hi He Hpi Hpe. repeat split.
  - destruct st as [o i e]; simpl in *; subst. reflexivity.
  - rewrite escape_app, (flags_eq _ _ _ Hpi Hpe).
    change (scan (Scanner [] true false) (Ch.lf :: post))
      with (scan (Scanner ([] ++ [Ch.backslash; 110]) true false) post).
    rewrite scan_out. reflexivity.
Qed.

Lemma escape_raw_newline_witness :
  scan_char (Scanner (lit "`a") true false) Ch.lf
  = Scanner (lit "`a" ++ [Ch.backslash; 110]) true false
  /\ escapeNewlinesInsideStrings (lit "[`a" ++ Ch.lf :: lit "b`]")
     = escapeNewlinesInsideStrings (lit "[`a") ++ [Ch.backslash; 110]
       ++ out (scan (Scanner [] true false) (lit "b`]"))
  /\ escapeNewlinesInsideStrings example_newline = lit "{`a`: `line1\nline2`}"
  /\ JSON_parse (escapeNewlinesInsideStrings example_newline)
     = Normal (VObj [(lit "a", VStr (lit "line1" ++ [Ch.lf] ++ lit "line2"))]).
Proof.
  apply (escape_raw_newline (Scanner (lit "`a") true false) (lit "[`a") (lit "b`]"));
    reflexivity.
Defined.

(** The raw text of the example is refused by the strict parser. *)
Example example_newline_rejected : JSON_parse example_newline = Throw SyntaxError.
Proof. reflexivity. Qed.

(** C4.  Inside a string, a backslash and the character after it are
    copied and leave the scanner inside the string, whatever the character
    is, a double quote included.  In the text of [example_quotes], whose
    string is: he said, backslash, quote, hi, backslash, quote, the scanner
    is inside the string after reading its first n characters, for every
    n from 7 (the opening quote of the value is read) to 21 (all but the
    closing quote and the brace are read), outside after the closing quote,
    and the text is copied unchanged. *)
Theorem escaped_character_passes (pre : jsstring) (ch : char) (post : jsstring) :
  inString (scan scanner_init pre) = true ->
  escaped (scan scanner_init pre) = false ->
  (inString (scan scanner_init (pre ++ [Ch.backslash; ch])) = true
   /\ escaped (scan scanner_init (pre ++ [Ch.backslash; ch])) = false
   /\ escapeNewlinesInsideStrings (pre ++ Ch.backslash :: ch :: post)
      = escapeNewlinesInsideStrings pre ++ Ch.backslash :: ch
        :: out (scan (Scanner [] true false) post))
  /\ (forall n, (7 <= n <= 21)%nat ->
                inString (scan scanner_init (firstn n example_quotes)) = true)
  /\ inString (scan scanner_init (firstn 22 example_quotes)) = false
  /\ escapeNewlinesInsideStrings example_quotes = example_quotes.
Proof.
  intros Hi He.
  assert (F := flags_eq _ _ _ Hi He).
  split; [|split; [|split; reflexivity]].
  - rewrite scan_app, (scan_out (scan scanner_init pre)), F.
    repeat split.
    rewrite escape_app, F.
    change (scan (Scanner [] true false) (Ch.backslash :: ch :: post))
      with (scan (Scanner ([] ++ [Ch.backslash; ch]) true false) post).
    rewrite scan_out. reflexivity.
  - intros n Hn.
    assert (H : forallb (fun k => inString (scan scanner_init (firstn k example_quotes)))
                        (seq 7 15) = true) by reflexivity.
    rewrite forallb_forall in H. apply H. apply in_seq. lia.
Qed.

Lemma escaped_character_passes_witness :
  (inString (scan scanner_init (lit "[`a" ++ [Ch.backslash; Ch.dquote])) = true
   /\ escaped (scan scanner_init (lit "[`a" ++ [Ch.backslash; Ch.dquote])) = false
   /\ escapeNewlinesInsideStrings (lit "[`a" ++ Ch.backslash :: Ch.dquote :: lit "b`]")
      = escapeNewlinesInsideStrings (lit "[`a") ++ Ch.backslash :: Ch.dquote
        :: out (scan (Scanner [] true false) (lit "b`]")))
  /\ (forall n, (7 <= n <= 21)%nat ->
                inString (scan scanner_init (firstn n example_quotes)) = true)
  /\ inString (scan scanner_init (firstn 22 example_quotes)) = false
  /\ escapeNewlinesInsideStrings example_quotes = example_quotes.
Proof.
  apply (escaped_character_passes (lit "[`a") Ch.dquote (lit "b`]")); reflexivity.
Defined.

(** Irregular whitespace outside strings is left as it is. *)
Example escape_keeps_outer_whitespace :
  escapeNewlinesInsideStrings (lit "{  `a`" ++ [Ch.tab] ++ lit ":" ++ [Ch.lf; Ch.cr] ++ lit " 1 }")
  = lit "{  `a`" ++ [Ch.tab] ++ lit ":" ++ [Ch.lf; Ch.cr] ++ lit " 1 }".
Proof. reflexivity. Qed.

(** The flags of the scanner along the example, one pair after each
    character: the string opened at the seventh character stays open
    through both escaped quotes. *)
Example example_quotes_trace :
  map (fun k => let st := scan scanner_init (firstn k example_quotes) in
                (inString st, escaped st)) (seq 15 8)
  = [(true, false); (true, true); (true, false); (true, false); (true, false);
     (true, true); (true, false); (false, false)].
Proof. reflexivity. Qed.

Example example_quotes_parses :
  JSON_parse (escapeNewlinesInsideStrings example_quotes)
  = Normal (VObj [(lit "a", VStr (lit "he said `hi`"))]).
Proof. reflexivity. Qed.

(** *** Lengths, and the characters outside strings *)

Lemma flags_scan_char (st : scanner) (ch : char) :
  flags (scan_char st ch) = flags (scan_char (flags st) ch).
Proof. rewrite (scan_char_out st ch). reflexivity. Qed.

Lemma outside_from_flags (st : scanner) (s : jsstring) :
  outside_from st s = outside_from (flags st) s.
Proof.
  revert st. induction s as [|ch s IH]; intros st; [reflexivity|].
  simpl. rewrite (IH (scan_char st ch)), (IH (scan_char (flags st) ch)).
  now rewrite flags_scan_char.
Qed.

Lemma outside_from_app (st : scanner) (a b : jsstring) :
  outside_from st (a ++ b) = outside_from st a ++ outside_from (scan st a) b.
Proof.
  revert st. induction a as [|ch a IH]; intros st; [reflexivity|].
  simpl. rewrite IH. now rewrite app_assoc.
Qed.

Lemma outside_step (i e : bool) (ch : char) :
  outside_from (Scanner [] i e) (out (scan_char (Scanner [] i e) ch))
  = if i then [] else [ch].
Proof.
  destruct i, e; unfold scan_char; simpl;
    repeat (match goal with
            | |- context [if ?b then _ else _] =>
                match b with context [ch] => destruct b eqn:? end
            end; simpl);
    reflexivity.
Qed.

Lemma outside_rescan (st : scanner) (s : jsstring) :
  outside_from (flags st) (out (scan (flags st) s)) = outside_from (flags st) s.
Proof.
  revert st. induction s as [|ch s IH]; intros st; [reflexivity|].
  simpl scan. fold (scan (scan_char (flags st) ch) s).
  rewrite (scan_out (scan_char (flags st) ch) s). simpl out.
  rewrite outside_from_app.
  unfold flags at 1 2 3. rewrite outside_step, rescan_step. fold (flags st).
  rewrite (outside_from_flags (scan_char (flags st) ch)), IH.
  simpl. now rewrite <- outside_from_flags.
Qed.

Lemma count_raw_flags (p : char -> bool) (st : scanner) (s : jsstring) :
  count_raw p st s = count_raw p (flags st) s.
Proof.
  revert st. induction s as [|ch s IH]; intros st; [reflexivity|].
  simpl. rewrite (IH (scan_char st ch)), (IH (scan_char (flags st) ch)).
  now rewrite flags_scan_char.
Qed.

(** One iteration appends one character, but two for a raw line feed or
    tab and none for a raw carriage return. *)
Lemma length_step (i e : bool) (ch : char) :
  (length (out (scan_char (Scanner [] i e) ch))
   + (if i && negb e && (ch =? Ch.cr)%N then 1 else 0)
   = 1 + (if i && negb e && ((ch =? Ch.lf)%N || (ch =? Ch.tab)%N) then 1 else 0))%nat.
Proof.
  destruct i, e; unfold scan_char; simpl; try reflexivity;
    try (destruct (N.eqb_spec ch Ch.dquote); reflexivity).
  destruct (N.eqb_spec ch Ch.backslash) as [-> | _]; [reflexivity|].
  destruct (N.eqb_spec ch Ch.dquote) as [-> | _]; [reflexivity|].
  destruct (N.eqb_spec ch Ch.lf) as [-> | _]; [reflexivity|].
  destruct (N.eqb_spec ch Ch.cr) as [-> | _]; [reflexivity|].
  destruct (N.eqb_spec ch Ch.tab) as [-> | _]; reflexivity.
Qed.

Lemma length_scan (st : scanner) (s : jsstring) :
  (length (out (scan (flags st) s)) + count_raw (fun c => (c =? Ch.cr)%N) (flags st) s
   = length s
     + count_raw (fun c => (c =? Ch.lf)%N || (c =? Ch.tab)%N) (flags st) s)%nat.
Proof.
  revert st. induction s as [|ch s IH]; intros st; [reflexivity|].
  simpl scan. fold (scan (scan_char (flags st) ch) s).
  rewrite (scan_out (scan_char (flags st) ch) s). simpl out.
  rewrite length_app. simpl count_raw. simpl length.
  rewrite (count_raw_flags _ (scan_char (flags st) ch)).
  rewrite (count_raw_flags (fun c => (c =? Ch.lf) || (c =? Ch.tab))
             (scan_char (flags st) ch)).
  specialize (IH (scan_char (flags st) ch)).
  pose proof (length_step (inString st) (escaped st) ch) as Hs.
  unfold flags in *. simpl in *. lia.
Qed.

Lemma escape_length_exact (s : jsstring) :
  (length (escapeNewlinesInsideStrings s) + raw_cr s = length s + raw_lf_tab s)%nat.
Proof.
  pose proof (length_scan scanner_init s) as H.
  change (flags scanner_init) with scanner_init in H. exact H.
Qed.

(** Without a raw carriage return inside a string the output is not
    shorter than the input. *)
Corollary escape_not_shorter (s : jsstring) :
  raw_cr s = 0%nat -> (length s <= length (escapeNewlinesInsideStrings s))%nat.
Proof. intros H. pose proof (escape_length_exact s). lia. Qed.

(** The text of [example_cr] loses its carriage return: the output is
    shorter than the input. *)
Lemma escape_shorter_on_cr :
  escapeNewlinesInsideStrings example_cr = lit "[`ab`]"
  /\ (length (escapeNewlinesInsideStrings example_cr) < length example_cr)%nat.
Proof. split; [reflexivity | vm_compute; lia]. Qed.

(** C7 (as the code has it).  The length of the output is the length of
    the input, plus one for every raw line feed or tab read inside a
    string, minus one for every raw carriage return read inside a string,
    which is dropped: it is at least the length of the input less the
    number of these carriage returns.  The characters read outside strings
    are each copied unchanged, and are the same, in the same order, in the
    output as in the input. *)
Theorem escape_length_and_outside (s : jsstring) :
  (length (escapeNewlinesInsideStrings s) + raw_cr s = length s + raw_lf_tab s)%nat
  /\ (length s - raw_cr s <= length (escapeNewlinesInsideStrings s))%nat
  /\ (forall o e ch, out (scan_char (Scanner o false e) ch) = o ++ [ch])
  /\ outside_string (escapeNewlinesInsideStrings s) = outside_string s.
Proof.
  pose proof (escape_length_exact s) as H.
  repeat split.
  - exact H.
  - lia.
  - intros o e ch. unfold scan_char. simpl. now destruct (ch =? Ch.dquote).
  - unfold outside_string, escapeNewlinesInsideStrings.
    change scanner_init with (flags scanner_init). apply outside_rescan.
Qed.


(** ** The strict parser and the scanner

    The scanner follows the string literals of a text exactly as the
    tokenizer of the strict parser does, and a text the tokenizer accepts
    has no raw control character inside a string: the scanner copies it. *)

Lemma copied_nil : copied [].
Proof. intros o. simpl. now rewrite app_nil_r. Qed.

Lemma copied_app (a b : jsstring) : copied a -> copied b -> copied (a ++ b).
Proof. intros Ha Hb o. now rewrite scan_app, Ha, Hb, app_assoc. Qed.

Lemma copied_char (c : char) : c <> Ch.dquote -> copied [c].
Proof.
  intros H o. simpl. unfold scan_char. simpl.
  destruct (N.eqb_spec c Ch.dquote); [contradiction | reflexivity].
Qed.

Lemma copied_no_quote (l : jsstring) : ~ In Ch.dquote l -> copied l.
Proof.
  induction l as [|c l IH]; intros H; [apply copied_nil|].
  change (c :: l) with ([c] ++ l). apply copied_app.
  - apply copied_char. intros ->. apply H. now left.
  - apply IH. intros Hin. apply H. now right.
Qed.

(** Inside a string, a character that is no control character, no quote
    and no backslash is copied. *)
Lemma scan_char_plain (o : jsstring) (c : char) :
  c <> Ch.backslash -> c <> Ch.dquote -> 32 <= c ->
  scan_char (Scanner o true false) c = Scanner (o ++ [c]) true false.
Proof.
  intros Hb Hq Hc. unfold scan_char. simpl.
  destruct (N.eqb_spec c Ch.backslash); [contradiction|].
  destruct (N.eqb_spec c Ch.dquote); [contradiction|].
  destruct (N.eqb_spec c Ch.lf) as [-> | _]; [unfold Ch.lf in Hc; lia|].
  destruct (N.eqb_spec c Ch.cr) as [-> | _]; [unfold Ch.cr in Hc; lia|].
  destruct (N.eqb_spec c Ch.tab) as [-> | _]; [unfold Ch.tab in Hc; lia|].
  reflexivity.
Qed.

Lemma scan_char_hex (o : jsstring) (h : char) (a : N) :
  hex_value h = Some a ->
  scan_char (Scanner o true false) h = Scanner (o ++ [h]) true false.
Proof.
  unfold hex_value. intros H.
  assert (R : (48 <= h /\ h <= 57) \/ (65 <= h /\ h <= 70) \/ (97 <= h /\ h <= 102)).
  { destruct (N.leb_spec 48 h), (N.leb_spec h 57); simpl in H; try (left; lia);
      destruct (N.leb_spec 65 h), (N.leb_spec h 70); simpl in H;
      try (right; left; lia);
      destruct (N.leb_spec 97 h), (N.leb_spec h 102); simpl in H;
      try (right; right; lia); discriminate. }
  apply scan_char_plain; unfold Ch.backslash, Ch.dquote; lia.
Qed.

(** A string literal the tokenizer accepts is read by the scanner from its
    first character to its closing quote, and copied. *)
Lemma lex_string_scan (n : nat) :
  forall s acc v after o,
    (length s <= n)%nat -> lex_string s acc = Some (v, after) ->
    exists body, s = body ++ after
                 /\ scan (Scanner o true false) body = Scanner (o ++ body) false false.
Proof.
  induction n as [|n IH]; intros s acc v after o Hn H.
  { destruct s; [discriminate | simpl in Hn; lia]. }
  destruct s as [|c rest]; [discriminate|].
  cbn [lex_string] in H.
  destruct (N.eqb_spec c Ch.dquote) as [-> | Hq].
  { injection H as _ <-. exists [Ch.dquote]. split; reflexivity. }
  destruct (N.eqb_spec c Ch.backslash) as [-> | Hb].
  - destruct rest as [|e rest1]; [discriminate|].
    destruct (e =? 117) eqn:Hu.
    + destruct rest1 as [|h1 [|h2 [|h3 [|h4 rest2]]]]; try discriminate.
      destruct (hex_value h1) as [a1|] eqn:E1; [|discriminate].
      destruct (hex_value h2) as [a2|] eqn:E2; [|discriminate].
      destruct (hex_value h3) as [a3|] eqn:E3; [|discriminate].
      destruct (hex_value h4) as [a4|] eqn:E4; [|discriminate].
      destruct (IH rest2 _ v after (o ++ [Ch.backslash; e; h1; h2; h3; h4])
                  ltac:(simpl in Hn; lia) H) as (body & -> & Hs).
      exists (Ch.backslash :: e :: h1 :: h2 :: h3 :: h4 :: body).
      split; [reflexivity|].
      change (scan (Scanner o true false)
                (Ch.backslash :: e :: h1 :: h2 :: h3 :: h4 :: body))
        with (scan (scan_char (scan_char (scan_char (scan_char
                (Scanner ((o ++ [Ch.backslash]) ++ [e]) true false) h1) h2) h3) h4)
                body).
      rewrite (scan_char_hex _ h1 a1 E1), (scan_char_hex _ h2 a2 E2),
        (scan_char_hex _ h3 a3 E3), (scan_char_hex _ h4 a4 E4).
      rewrite <- !app_assoc. simpl app at 2.
      rewrite Hs. f_equal. now rewrite <- app_assoc.
    + destruct (simple_escape e) as [x|]; [|discriminate].
      destruct (IH rest1 _ v after (o ++ [Ch.backslash; e])
                  ltac:(simpl in Hn; lia) H) as (body & -> & Hs).
      exists (Ch.backslash :: e :: body). split; [reflexivity|].
      change (scan (Scanner o true false) (Ch.backslash :: e :: body))
        with (scan (Scanner ((o ++ [Ch.backslash]) ++ [e]) true false) body).
      rewrite <- app_assoc. simpl app at 2.
      rewrite Hs. f_equal. now rewrite <- app_assoc.
  - destruct (N.ltb_spec c 32) as [|Hc]; [discriminate|].
    destruct (IH rest _ v after (o ++ [c]) ltac:(simpl in Hn; lia) H)
      as (body & -> & Hs).
    exists (c :: body). split; [reflexivity|].
    simpl scan. fold (scan (scan_char (Scanner o true false) c) body).
    rewrite scan_char_plain by assumption.
    rewrite Hs. f_equal. now rewrite <- app_assoc.
Qed.

(** What the tokenizer takes for a number or a literal name has no double
    quote. *)
Lemma digit_not_quote (c : char) : is_digit c = true -> c <> Ch.dquote.
Proof. intros H ->. discriminate. Qed.

Lemma span_digits_consumed (s ds r : jsstring) :
  span_digits s = (ds, r) -> consumed s ds r.
Proof.
  revert ds r. induction s as [|c s IH]; intros ds r H; simpl in H.
  - injection H as <- <-. split; [reflexivity | intros []].
  - destruct (is_digit c) eqn:Hc.
    + destruct (span_digits s) as [ds' r'] eqn:E. injection H as <- <-.
      destruct (IH _ _ eq_refl) as (-> & Hq).
      split; [reflexivity|].
      intros [E' | Hin]; [now apply (digit_not_quote _ Hc) | contradiction].
    + injection H as <- <-. split; [reflexivity | intros []].
Qed.

Lemma lex_digits1_consumed (s ds r : jsstring) :
  lex_digits1 s = Some (ds, r) -> consumed s ds r.
Proof.
  unfold lex_digits1. destruct (span_digits s) as [[|d ds'] r'] eqn:E; [discriminate|].
  intros H. injection H as <- <-. now apply span_digits_consumed.
Qed.

Lemma consumed_cons (c : char) (s l after : jsstring) :
  c <> Ch.dquote -> consumed s l after -> consumed (c :: s) (c :: l) after.
Proof.
  intros Hc (-> & Hq). split; [reflexivity|].
  intros [E | Hin]; [now apply Hc | contradiction].
Qed.

Lemma consumed_none (s : jsstring) : consumed s [] s.
Proof. split; [reflexivity | intros []]. Qed.

Lemma consumed_app (s l1 s1 l2 s2 : jsstring) :
  consumed s l1 s1 -> consumed s1 l2 s2 -> consumed s (l1 ++ l2) s2.
Proof.
  intros (-> & H1) (-> & H2). split; [now rewrite app_assoc|].
  intros Hin. apply in_app_or in Hin. tauto.
Qed.

Lemma lex_int_consumed (s l r : jsstring) :
  lex_int s = Some (l, r) -> consumed s l r.
Proof.
  unfold lex_int. destruct s as [|c s]; [discriminate|].
  destruct (N.eqb_spec c 48) as [-> | _].
  - intros H. injection H as <- <-.
    apply consumed_cons; [discriminate | apply consumed_none].
  - destruct (is_digit c) eqn:Hc; [|discriminate].
    destruct (span_digits s) as [ds r'] eqn:E. intros H. injection H as <- <-.
    apply consumed_cons; [now apply digit_not_quote | now apply span_digits_consumed].
Qed.

Lemma lex_frac_consumed (s l r : jsstring) :
  lex_frac s = Some (l, r) -> consumed s l r.
Proof.
  unfold lex_frac. destruct s as [|c s].
  - intros H. injection H as <- <-. apply consumed_none.
  - destruct (N.eqb_spec c 46) as [-> | _].
    + destruct (lex_digits1 s) as [[ds r']|] eqn:E; [|discriminate].
      intros H. injection H as <- <-.
      apply consumed_cons; [discriminate | now apply lex_digits1_consumed].
    + intros H. injection H as <- <-. apply consumed_none.
Qed.

Lemma lex_exp_consumed (s l r : jsstring) :
  lex_exp s = Some (l, r) -> consumed s l r.
Proof.
  unfold lex_exp. destruct s as [|c s].
  - intros H. injection H as <- <-. apply consumed_none.
  - destruct ((c =? 101) || (c =? 69)) eqn:Hc.
    + assert (c <> Ch.dquote).
      { intros ->. discriminate. }
      destruct s as [|sg s1]; [discriminate|].
      destruct ((sg =? 43) || (sg =? 45)) eqn:Hs.
      * assert (sg <> Ch.dquote) by (intros ->; discriminate).
        destruct (lex_digits1 s1) as [[ds r']|] eqn:E; [|discriminate].
        intros H'. injection H' as <- <-.
        do 2 (apply consumed_cons; [assumption|]). now apply lex_digits1_consumed.
      * destruct (lex_digits1 (sg :: s1)) as [[ds r']|] eqn:E; [|discriminate].
        intros H'. injection H' as <- <-.
        apply consumed_cons; [assumption|]. now apply lex_digits1_consumed.
    + intros H. injection H as <- <-. apply consumed_none.
Qed.

Lemma lex_number_consumed (s l r : jsstring) :
  lex_number s = Some (l, r) -> consumed s l r.
Proof.
  unfold lex_number.
  assert (Hsign : forall sign s0,
             (match s with
              | c :: rest => if c =? 45 then ([c], rest) else ([], s)
              | [] => ([], s)
              end) = (sign, s0) -> consumed s sign s0).
  { intros sign s0. destruct s as [|c rest].
    - intros H. injection H as <- <-. apply consumed_none.
    - destruct (N.eqb_spec c 45) as [-> | _]; intros H; injection H as <- <-.
      + apply consumed_cons; [discriminate | apply consumed_none].
      + apply consumed_none. }
  destruct (match s with
            | c :: rest => if c =? 45 then ([c], rest) else ([], s)
            | [] => ([], s)
            end) as [sign s0] eqn:E0.
  specialize (Hsign _ _ eq_refl).
  destruct (lex_int s0) as [[i s1]|] eqn:E1; [|discriminate].
  destruct (lex_frac s1) as [[f s2]|] eqn:E2; [|discriminate].
  destruct (lex_exp s2) as [[e s3]|] eqn:E3; [|discriminate].
  intros H. injection H as <- <-.
  apply lex_int_consumed in E1. apply lex_frac_consumed in E2.
  apply lex_exp_consumed in E3.
  eapply consumed_app; [exact Hsign|].
  eapply consumed_app; [exact E1|].
  eapply consumed_app; [exact E2 | exact E3].
Qed.

Lemma strip_prefix_app (p s after : jsstring) :
  strip_prefix p s = Some after -> s = p ++ after.
Proof.
  revert s. induction p as [|x p IH]; intros s H; simpl in H.
  - now injection H as <-.
  - destruct s as [|y s]; [discriminate|].
    destruct (N.eqb_spec x y) as [-> | _]; [|discriminate].
    simpl. f_equal. now apply IH.
Qed.

Lemma cons_token_some (t : token) (r : option (list token)) (ts : list token) :
  cons_token t r = Some ts -> exists ts', r = Some ts'.
Proof. destruct r as [ts'|]; [now exists ts' | discriminate]. Qed.

(** One step of the tokenizer: it takes a prefix that the scanner copies,
    and goes on with the rest. *)
Lemma tokenize_step (fuel : nat) (c : char) (rest : jsstring) (ts : list token) :
  tokenize_fuel (S fuel) (c :: rest) = Some ts ->
  exists l after ts',
    c :: rest = l ++ after /\ copied l /\ tokenize_fuel fuel after = Some ts'.
Proof.
  cbn [tokenize_fuel].
  assert (One : forall t, c <> Ch.dquote ->
                 cons_token t (tokenize_fuel fuel rest) = Some ts ->
                 exists l after ts',
                   c :: rest = l ++ after /\ copied l
                   /\ tokenize_fuel fuel after = Some ts').
  { intros t Hc H. apply cons_token_some in H. destruct H as (ts' & H).
    exists [c], rest, ts'. repeat split; [now apply copied_char | assumption]. }
  destruct (is_json_ws c) eqn:Hws.
  { intros H. exists [c], rest, ts. repeat split; [|assumption].
    apply copied_char. intros ->. discriminate. }
  destruct (N.eqb_spec c Ch.lbrace) as [-> | _]; [apply One; discriminate|].
  destruct (N.eqb_spec c Ch.rbrace) as [-> | _]; [apply One; discriminate|].
  destruct (N.eqb_spec c Ch.lbracket) as [-> | _]; [apply One; discriminate|].
  destruct (N.eqb_spec c Ch.rbracket) as [-> | _]; [apply One; discriminate|].
  destruct (N.eqb_spec c Ch.colon) as [-> | _]; [apply One; discriminate|].
  destruct (N.eqb_spec c Ch.comma) as [-> | _]; [apply One; discriminate|].
  destruct (N.eqb_spec c Ch.dquote) as [-> | Hq].
  { destruct (lex_string rest []) as [[v after]|] eqn:E; [|discriminate].
    intros H. apply cons_token_some in H. destruct H as (ts' & H).
    destruct (lex_string_scan (length rest) rest [] v after []
                (le_n _) E) as (body & -> & Hs).
    exists (Ch.dquote :: body), after, ts'. repeat split; [|assumption].
    intros o. simpl scan.
    change (scan_char (Scanner o false false) Ch.dquote)
      with (Scanner (o ++ [Ch.dquote]) true false).
    rewrite scan_out. unfold flags. simpl. rewrite Hs. simpl.
    now rewrite <- app_assoc. }
  destruct ((c =? 45) || is_digit c).
  { destruct (lex_number (c :: rest)) as [[l after]|] eqn:E; [|discriminate].
    intros H. apply cons_token_some in H. destruct H as (ts' & H).
    apply lex_number_consumed in E. destruct E as (E & Hl).
    exists l, after, ts'. repeat split; [assumption | now apply copied_no_quote | assumption]. }
  assert (Name : forall p t after,
             ~ In Ch.dquote p -> strip_prefix p (c :: rest) = Some after ->
             cons_token t (tokenize_fuel fuel after) = Some ts ->
             exists l after ts',
               c :: rest = l ++ after /\ copied l
               /\ tokenize_fuel fuel after = Some ts').
  { intros p t after Hp E H. apply cons_token_some in H. destruct H as (ts' & H).
    apply strip_prefix_app in E.
    exists p, after, ts'. repeat split; [assumption | now apply copied_no_quote | assumption]. }
  assert (NoQ : forall p, forallb (fun x => negb (x =? Ch.dquote)) p = true ->
                          ~ In Ch.dquote p).
  { intros p Hp Hin. rewrite forallb_forall in Hp. now apply Hp in Hin. }
  destruct (strip_prefix (lit "true") (c :: rest)) as [a1|] eqn:E1.
  { apply (Name (lit "true") TTrue a1 (NoQ (lit "true") eq_refl) E1). }
  destruct (strip_prefix (lit "false") (c :: rest)) as [a2|] eqn:E2.
  { apply (Name (lit "false") TFalse a2 (NoQ (lit "false") eq_refl) E2). }
  destruct (strip_prefix (lit "null") (c :: rest)) as [a3|] eqn:E3.
  { apply (Name (lit "null") TNull a3 (NoQ (lit "null") eq_refl) E3). }
  discriminate.
Qed.

Lemma tokenize_fuel_copied (fuel : nat) :
  forall s ts, tokenize_fuel fuel s = Some ts -> copied s.
Proof.
  induction fuel as [|fuel IH]; intros s ts H.
  - destruct s; [apply copied_nil | discriminate].
  - destruct s as [|c rest]; [apply copied_nil|].
    apply tokenize_step in H. destruct H as (l & after & ts' & -> & Hl & H).
    apply copied_app; [assumption | now apply (IH after ts')].
Qed.

(** The scanner copies every text the strict parser accepts. *)
Lemma escape_valid_json (s : jsstring) (v : value) :
  JSON_parse s = Normal v -> escapeNewlinesInsideStrings s = s.
Proof.
  unfold JSON_parse. destruct (tokenize s) as [ts|] eqn:E; [|discriminate].
  intros _. apply tokenize_fuel_copied in E.
  unfold escapeNewlinesInsideStrings, scanner_init. now rewrite E.
Qed.

(** ** The fuel of the strict parser

    The tokenizer and the parser are given fuel enough: more fuel never
    changes a result. *)

Lemma lex_string_shorter (s acc v after : jsstring) :
  lex_string s acc = Some (v, after) -> (length after < length s)%nat.
Proof.
  intros H.
  destruct (lex_string_scan (length s) s acc v after [] (le_n _) H) as (body & -> & Hs).
  rewrite length_app. destruct body; [discriminate | simpl; lia].
Qed.

Lemma lex_int_nonempty (s l r : jsstring) : lex_int s = Some (l, r) -> l <> [].
Proof.
  unfold lex_int. destruct s as [|c s]; [discriminate|].
  destruct (c =? 48); [intros H; injection H as <- _; discriminate|].
  destruct (is_digit c); [|discriminate].
  destruct (span_digits s). intros H; injection H as <- _; discriminate.
Qed.

Lemma lex_number_shorter (s l after : jsstring) :
  lex_number s = Some (l, after) -> (length after < length s)%nat.
Proof.
  intros H. pose proof (lex_number_consumed _ _ _ H) as (-> & _).
  assert (l <> []).
  { unfold lex_number in H.
    destruct (match l ++ after with
              | c :: rest => if c =? 45 then ([c], rest) else ([], l ++ after)
              | [] => ([], l ++ after)
              end) as [sign s0].
    destruct (lex_int s0) as [[i s1]|] eqn:E1; [|discriminate].
    destruct (lex_frac s1) as [[f s2]|]; [|discriminate].
    destruct (lex_exp s2) as [[e s3]|]; [|discriminate].
    injection H as <- _. apply lex_int_nonempty in E1.
    destruct sign; [destruct i; [contradiction | discriminate] | discriminate]. }
  rewrite length_app. destruct l; [contradiction | simpl; lia].
Qed.

Lemma strip_prefix_shorter (p s after : jsstring) :
  p <> [] -> strip_prefix p s = Some after -> (length after < length s)%nat.
Proof.
  intros Hp H. apply strip_prefix_app in H. subst s.
  rewrite length_app. destruct p; [contradiction | simpl; lia].
Qed.

Lemma tokenize_fuel_enough (f1 : nat) :
  forall f2 s, (length s <= f1)%nat -> (length s <= f2)%nat ->
               tokenize_fuel f1 s = tokenize_fuel f2 s.
Proof.
  induction f1 as [|f1 IH]; intros f2 s H1 H2.
  { destruct s; [destruct f2; reflexivity | simpl in H1; lia]. }
  destruct f2 as [|f2]; [destruct s; [reflexivity | simpl in H2; lia]|].
  destruct s as [|c rest]; [reflexivity|].
  simpl in H1, H2.
  assert (R : tokenize_fuel f1 rest = tokenize_fuel f2 rest) by (apply IH; lia).
  cbn [tokenize_fuel]. rewrite R.
  destruct (is_json_ws c); [reflexivity|].
  repeat match goal with
         | |- context [if c =? ?k then _ else _] => destruct (c =? k); [reflexivity|]
         end.
  destruct (c =? Ch.dquote).
  { destruct (lex_string rest []) as [[v after]|] eqn:E; [|reflexivity].
    apply lex_string_shorter in E. rewrite (IH f2 after); [reflexivity | lia | lia]. }
  destruct ((c =? 45) || is_digit c).
  { destruct (lex_number (c :: rest)) as [[l after]|] eqn:E; [|reflexivity].
    apply lex_number_shorter in E. simpl in E.
    rewrite (IH f2 after); [reflexivity | lia | lia]. }
  destruct (strip_prefix (lit "true") (c :: rest)) as [a1|] eqn:E1.
  { apply strip_prefix_shorter in E1; [|discriminate]. simpl in E1.
    rewrite (IH f2 a1); [reflexivity | lia | lia]. }
  destruct (strip_prefix (lit "false") (c :: rest)) as [a2|] eqn:E2.
  { apply strip_prefix_shorter in E2; [|discriminate]. simpl in E2.
    rewrite (IH f2 a2); [reflexivity | lia | lia]. }
  destruct (strip_prefix (lit "null") (c :: rest)) as [a3|] eqn:E3.
  { apply strip_prefix_shorter in E3; [|discriminate]. simpl in E3.
    rewrite (IH f2 a3); [reflexivity | lia | lia]. }
  reflexivity.
Qed.

(** With any fuel not less than the length of the text the tokenizer
    gives the result of [tokenize]. *)
Corollary tokenize_any_fuel (fuel : nat) (s : jsstring) :
  (length s <= fuel)%nat -> tokenize_fuel fuel s = tokenize s.
Proof. intros H. apply tokenize_fuel_enough; [assumption | apply le_n]. Qed.

Lemma parse_value_S (f : nat) (ts : list token) :
  parse_value (S f) ts =
  match ts with
  | TNull :: r => Some (VNull, r)
  | TTrue :: r => Some (VBool true, r)
  | TFalse :: r => Some (VBool false, r)
  | TNumber l :: r => Some (VNum l, r)
  | TString s :: r => Some (VStr s, r)
  | TLBracket :: TRBracket :: r => Some (VArr [], r)
  | TLBracket :: r =>
      match parse_elements f r with
      | Some (items, r') => Some (VArr items, r')
      | None => None
      end
  | TLBrace :: TRBrace :: r => Some (VObj [], r)
  | TLBrace :: r =>
      match parse_members f r with
      | Some (members, r') => Some (make_object members, r')
      | None => None
      end
  | _ => None
  end.
Proof. reflexivity. Qed.

Lemma parse_elements_S (f : nat) (ts : list token) :
  parse_elements (S f) ts =
  match parse_value f ts with
  | Some (v, TComma :: r) =>
      match parse_elements f r with
      | Some (vs, r') => Some (v :: vs, r')
      | None => None
      end
  | Some (v, TRBracket :: r) => Some ([v], r)
  | _ => None
  end.
Proof. reflexivity. Qed.

Lemma parse_members_S (f : nat) (ts : list token) :
  parse_members (S f) ts =
  match ts with
  | TString k :: TColon :: r =>
      match parse_value f r with
      | Some (v, TComma :: r') =>
          match parse_members f r' with
          | Some (ms, r'') => Some ((k, v) :: ms, r'')
          | None => None
          end
      | Some (v, TRBrace :: r') => Some ([(k, v)], r')
      | _ => None
      end
  | _ => None
  end.
Proof. reflexivity. Qed.

(** A result of the parser stays with one more unit of fuel. *)
Lemma parse_fuel_S (f : nat) :
  (forall ts r, parse_value f ts = Some r -> parse_value (S f) ts = Some r)
  /\ (forall ts r, parse_elements f ts = Some r -> parse_elements (S f) ts = Some r)
  /\ (forall ts r, parse_members f ts = Some r -> parse_members (S f) ts = Some r).
Proof.
  induction f as [|f (IHv & IHe & IHm)]; [repeat split; intros; discriminate|].
  repeat split; intros ts r H.
  - rewrite parse_value_S in H. rewrite parse_value_S.
    destruct ts as [|[] ts]; try discriminate; try assumption.
    + destruct ts as [|[] ts]; try assumption;
        (destruct (parse_members f _) as [[ms r']|] eqn:E; [|discriminate];
         apply IHm in E; rewrite E; assumption).
    + destruct ts as [|[] ts]; try assumption;
        (destruct (parse_elements f _) as [[vs r']|] eqn:E; [|discriminate];
         apply IHe in E; rewrite E; assumption).
  - rewrite parse_elements_S in H. rewrite parse_elements_S.
    destruct (parse_value f ts) as [[v r0]|] eqn:E; [|discriminate].
    apply IHv in E. rewrite E.
    destruct r0 as [|[] r0]; try discriminate; try assumption.
    destruct (parse_elements f r0) as [[vs r']|] eqn:E'; [|discriminate].
    apply IHe in E'. rewrite E'. assumption.
  - rewrite parse_members_S in H. rewrite parse_members_S.
    destruct ts as [|[] ts]; try discriminate.
    destruct ts as [|[] ts]; try discriminate.
    destruct (parse_value f ts) as [[v r0]|] eqn:E; [|discriminate].
    apply IHv in E. rewrite E.
    destruct r0 as [|[] r0]; try discriminate; try assumption.
    destruct (parse_members f r0) as [[ms r']|] eqn:E'; [|discriminate].
    apply IHm in E'. rewrite E'. assumption.
Qed.

Lemma parse_fuel_le (f f' : nat) :
  (f <= f')%nat ->
  (forall ts r, parse_value f ts = Some r -> parse_value f' ts = Some r)
  /\ (forall ts r, parse_elements f ts = Some r -> parse_elements f' ts = Some r)
  /\ (forall ts r, parse_members f ts = Some r -> parse_members f' ts = Some r).
Proof.
  induction 1 as [|f' _ (IHv & IHe & IHm)]; [now repeat split|].
  destruct (parse_fuel_S f') as (Sv & Se & Sm).
  repeat split; intros ts r H; [apply Sv, IHv | apply Se, IHe | apply Sm, IHm];
    assumption.
Qed.

(** Twice the number of tokens a result has taken is fuel enough for it. *)
Lemma parse_fuel_taken (f : nat) :
  (forall ts v r, parse_value f ts = Some (v, r) ->
     (length r < length ts)%nat
     /\ parse_value (2 * (length ts - length r)) ts = Some (v, r))
  /\ (forall ts vs r, parse_elements f ts = Some (vs, r) ->
     (length r < length ts)%nat
     /\ parse_elements (2 * (length ts - length r)) ts = Some (vs, r))
  /\ (forall ts ms r, parse_members f ts = Some (ms, r) ->
     (length r < length ts)%nat
     /\ parse_members (2 * (length ts - length r)) ts = Some (ms, r)).
Proof.
  induction f as [|f (IHv & IHe & IHm)]; [repeat split; intros; discriminate|].
  assert (Lift_v : forall g ts r, parse_value g ts = Some r ->
                     forall g', (g <= g')%nat -> parse_value g' ts = Some r).
  { intros g ts r H g' Hg. now apply (proj1 (parse_fuel_le g g' Hg)). }
  assert (Lift_e : forall g ts r, parse_elements g ts = Some r ->
                     forall g', (g <= g')%nat -> parse_elements g' ts = Some r).
  { intros g ts r H g' Hg. now apply (proj1 (proj2 (parse_fuel_le g g' Hg))). }
  assert (Lift_m : forall g ts r, parse_members g ts = Some r ->
                     forall g', (g <= g')%nat -> parse_members g' ts = Some r).
  { intros g ts r H g' Hg. now apply (proj2 (proj2 (parse_fuel_le g g' Hg))). }
  assert (Two : forall n, (0 < n)%nat -> (2 * n = S (S (2 * (n - 1))))%nat)
    by (intros; lia).
  repeat split.
  - (* values are shorter *)
    rewrite parse_value_S in H.
    destruct ts as [|[] ts]; try discriminate;
      try (injection H as _ <-; cbn [length] in *; lia).
    + destruct ts as [|[] ts]; try (injection H as _ <-; cbn [length] in *; lia);
        (destruct (parse_members f _) as [[ms r']|] eqn:E; [|discriminate];
         injection H as _ <-; apply IHm in E; cbn [length] in *; lia).
    + destruct ts as [|[] ts]; try (injection H as _ <-; cbn [length] in *; lia);
        (destruct (parse_elements f _) as [[vs r']|] eqn:E; [|discriminate];
         injection H as _ <-; apply IHe in E; cbn [length] in *; lia).
  - rewrite parse_value_S in H.
    destruct ts as [|t ts]; [discriminate|].
    assert (Hlen : forall r0 : list token,
               (length r0 <= length ts)%nat ->
               (2 * (length (t :: ts) - length r0)
                = S (S (2 * (length ts - length r0))))%nat)
      by (intros; cbn [length] in *; lia).
    destruct t; try discriminate;
      try (injection H as <- <-; rewrite Hlen by lia; reflexivity).
    + destruct ts as [|t' ts'].
      { destruct (parse_members f []) as [[ms r']|] eqn:E; [|discriminate].
        apply IHm in E. cbn [length] in E; lia. }
      destruct t';
        try (injection H as <- <-; rewrite Hlen by (cbn [length] in *; lia); reflexivity);
        (destruct (parse_members f _) as [[ms r']|] eqn:E; [|discriminate];
         injection H as <- <-; destruct (IHm _ _ _ E) as (L & E');
         rewrite Hlen by lia; rewrite parse_value_S;
         rewrite (Lift_m _ _ _ E' (S (2 * (length (_ :: ts') - length r')))%nat);
         [reflexivity | lia]).
    + destruct ts as [|t' ts'].
      { destruct (parse_elements f []) as [[vs r']|] eqn:E; [|discriminate].
        apply IHe in E. cbn [length] in E; lia. }
      destruct t';
        try (injection H as <- <-; rewrite Hlen by (cbn [length] in *; lia); reflexivity);
        (destruct (parse_elements f _) as [[vs r']|] eqn:E; [|discriminate];
         injection H as <- <-; destruct (IHe _ _ _ E) as (L & E');
         rewrite Hlen by lia; rewrite parse_value_S;
         rewrite (Lift_e _ _ _ E' (S (2 * (length (_ :: ts') - length r')))%nat);
         [reflexivity | lia]).
  - rewrite parse_elements_S in H.
    destruct (parse_value f ts) as [[v0 r0]|] eqn:E; [|discriminate].
    apply IHv in E. destruct E as (L & _).
    destruct r0 as [|[] r0]; try discriminate.
    + injection H as _ <-. cbn [length] in L. lia.
    + destruct (parse_elements f r0) as [[vs' r']|] eqn:E'; [|discriminate].
      injection H as _ <-. apply IHe in E'. cbn [length] in L. lia.
  - rewrite parse_elements_S in H.
    destruct (parse_value f ts) as [[v0 r0]|] eqn:E; [|discriminate].
    destruct (IHv _ _ _ E) as (L & Ev).
    destruct r0 as [|[] r0]; try discriminate.
    + injection H as <- <-. cbn [length] in L.
      rewrite (Two (length ts - length r0)%nat) by lia. rewrite parse_elements_S.
      rewrite (Lift_v _ _ _ Ev (S (2 * (length ts - length r0 - 1)))%nat)
        by (cbn [length] in *; lia).
      reflexivity.
    + destruct (parse_elements f r0) as [[vs' r']|] eqn:E'; [|discriminate].
      injection H as <- <-. destruct (IHe _ _ _ E') as (L' & Ee). cbn [length] in L.
      rewrite (Two (length ts - length r')%nat) by lia. rewrite parse_elements_S.
      rewrite (Lift_v _ _ _ Ev (S (2 * (length ts - length r' - 1)))%nat)
        by (cbn [length] in *; lia).
      rewrite (Lift_e _ _ _ Ee (S (2 * (length ts - length r' - 1)))%nat)
        by (cbn [length] in *; lia).
      reflexivity.
  - rewrite parse_members_S in H.
    destruct ts as [|[] ts]; try discriminate.
    destruct ts as [|[] ts]; try discriminate.
    destruct (parse_value f ts) as [[v0 r0]|] eqn:E; [|discriminate].
    apply IHv in E. destruct E as (L & _).
    destruct r0 as [|[] r0]; try discriminate.
    + injection H as _ <-. cbn [length] in *; lia.
    + destruct (parse_members f r0) as [[ms' r']|] eqn:E'; [|discriminate].
      injection H as _ <-. apply IHm in E'. cbn [length] in *; lia.
  - rewrite parse_members_S in H.
    destruct ts as [|[] ts]; try discriminate.
    destruct ts as [|[] ts]; try discriminate.
    destruct (parse_value f ts) as [[v0 r0]|] eqn:E; [|discriminate].
    destruct (IHv _ _ _ E) as (L & Ev).
    destruct r0 as [|[] r0]; try discriminate.
    + injection H as <- <-. cbn [length] in L.
      rewrite (Two (length (TString s :: TColon :: ts) - length r0)%nat)
        by (cbn [length] in *; lia).
      rewrite parse_members_S.
      rewrite (Lift_v _ _ _ Ev
                 (S (2 * (length (TString s :: TColon :: ts) - length r0 - 1)))%nat)
        by (cbn [length] in *; lia).
      reflexivity.
    + destruct (parse_members f r0) as [[ms' r']|] eqn:E'; [|discriminate].
      injection H as <- <-. destruct (IHm _ _ _ E') as (L' & Em). cbn [length] in L.
      rewrite (Two (length (TString s :: TColon :: ts) - length r')%nat)
        by (cbn [length] in *; lia).
      rewrite parse_members_S.
      rewrite (Lift_v _ _ _ Ev
                 (S (2 * (length (TString s :: TColon :: ts) - length r' - 1)))%nat)
        by (cbn [length] in *; lia).
      rewrite (Lift_m _ _ _ Em
                 (S (2 * (length (TString s :: TColon :: ts) - length r' - 1)))%nat)
        by (cbn [length] in *; lia).
      reflexivity.
Qed.

(** The fuel of [JSON_parse] is enough: a text that the tokenizer and the
    parser accept with some fuel is accepted by [JSON_parse], with the same
    value. *)
Theorem JSON_parse_fuel_enough (f1 f2 : nat) (s : jsstring) (ts : list token) (v : value) :
  (length s <= f1)%nat -> tokenize_fuel f1 s = Some ts ->
  parse_value f2 ts = Some (v, []) -> JSON_parse s = Normal v.
Proof.
  intros H1 T P. unfold JSON_parse.
  rewrite <- (tokenize_any_fuel f1 s H1), T.
  destruct (parse_fuel_taken f2) as (Hv & _).
  destruct (Hv _ _ _ P) as (_ & P').
  destruct (parse_fuel_le (2 * (length ts - length (@nil token)))%nat (2 * length ts + 2)%nat)
    as (Lv & _); [simpl; lia|].
  now rewrite (Lv _ _ P').
Qed.

(** ** Valid JSON through the sanitizer and the scanner *)

Lemma trailing_comma_in_spec (s : jsstring) :
  trailing_comma_in s = true <-> has_trailing_comma s.
Proof.
  split.
  - induction s as [|x s IH]; [discriminate|].
    cbn [trailing_comma_in].
    destruct (match_trailing_comma (x :: s)) as [[c after]|] eqn:E.
    + intros _. simpl in E.
      destruct (N.eqb_spec x Ch.comma) as [-> | _]; [|discriminate].
      apply match_space_closer_inv in E. destruct E as (ws & -> & Hws & Hc).
      now exists [], ws, c, after.
    + intros H. destruct (IH H) as (pre & ws & c & post & -> & Hws & Hc).
      now exists (x :: pre), ws, c, post.
  - intros (pre & ws & c & post & -> & Hws & Hc).
    induction pre as [|x pre IH].
    + simpl. now rewrite match_space_closer_run.
    + change ((x :: pre) ++ Ch.comma :: ws ++ c :: post)
        with (x :: (pre ++ Ch.comma :: ws ++ c :: post)).
      cbn [trailing_comma_in].
      now destruct (match_trailing_comma (x :: pre ++ Ch.comma :: ws ++ c :: post)).
Qed.

(** Without its pattern the comma rule changes nothing. *)
Lemma remove_trailing_commas_absent (s : jsstring) :
  trailing_comma_in s = false -> remove_trailing_commas s = s.
Proof.
  induction s as [|x s IH]; [reflexivity|].
  cbn [trailing_comma_in]. rewrite remove_trailing_commas_cons.
  destruct (match_trailing_comma (x :: s)) as [[c after]|]; [discriminate|].
  intros H. f_equal. now apply IH.
Qed.

Lemma sanitize_absent (s : jsstring) :
  ~ In Ch.line_separator s -> ~ In Ch.paragraph_separator s ->
  trailing_comma_in s = false -> sanitizeCommonBreakers s = s.
Proof.
  intros Hl Hp Hc. unfold sanitizeCommonBreakers.
  rewrite (replace_char_absent Ch.line_separator) by assumption.
  rewrite (replace_char_absent Ch.paragraph_separator) by assumption.
  now apply remove_trailing_commas_absent.
Qed.

(** The text  {"a": ",}"}  is valid JSON, and the comma rule takes the
    comma out of its string: the text changes, and so does its value. *)
Lemma valid_json_changed :
  JSON_parse example_comma_in_string = Normal (VObj [(lit "a", VStr (lit ",}"))])
  /\ escapeNewlinesInsideStrings (sanitizeCommonBreakers example_comma_in_string)
     = lit "{`a`: `}`}"
  /\ escapeNewlinesInsideStrings (sanitizeCommonBreakers example_comma_in_string)
     <> example_comma_in_string
  /\ JSON_parse (escapeNewlinesInsideStrings
                   (sanitizeCommonBreakers example_comma_in_string))
     = Normal (VObj [(lit "a", VStr (lit "}"))]).
Proof. repeat split; try reflexivity. discriminate. Qed.

(** A raw U+2028 inside a string is valid JSON too, and is rewritten. *)
Example valid_json_separator_changed :
  JSON_parse (lit "[`x" ++ [Ch.line_separator] ++ lit "`]")
  = Normal (VArr [VStr (lit "x" ++ [Ch.line_separator])])
  /\ JSON_parse (escapeNewlinesInsideStrings
                   (sanitizeCommonBreakers (lit "[`x" ++ [Ch.line_separator] ++ lit "`]")))
     = Normal (VArr [VStr (lit "x" ++ [Ch.lf])]).
Proof. split; reflexivity. Qed.

(** C2 (as the code has it).  A valid JSON text that holds neither U+2028
    nor U+2029 and nowhere a comma followed only by whitespace and a
    closing brace or bracket goes through the sanitizer and the scanner
    unchanged, and the strict parser gives the same value for the result. *)
Theorem valid_json_unchanged (s : jsstring) (v : value) :
  JSON_parse s = Normal v ->
  ~ In Ch.line_separator s -> ~ In Ch.paragraph_separator s ->
  trailing_comma_in s = false ->
  sanitizeCommonBreakers s = s
  /\ escapeNewlinesInsideStrings (sanitizeCommonBreakers s) = s
  /\ JSON_parse (escapeNewlinesInsideStrings (sanitizeCommonBreakers s)) = Normal v.
Proof.
  intros Hv Hl Hp Hc.
  assert (E1 : sanitizeCommonBreakers s = s) by now apply sanitize_absent.
  assert (E2 : escapeNewlinesInsideStrings s = s) by now apply (escape_valid_json s v).
  rewrite E1, E2. now repeat split.
Qed.

Lemma valid_json_unchanged_witness :
  sanitizeCommonBreakers (lit "{`a`: [1, 2.5e-3], `b`: `x\ny, z`}")
  = lit "{`a`: [1, 2.5e-3], `b`: `x\ny, z`}"
  /\ escapeNewlinesInsideStrings
       (sanitizeCommonBreakers (lit "{`a`: [1, 2.5e-3], `b`: `x\ny, z`}"))
     = lit "{`a`: [1, 2.5e-3], `b`: `x\ny, z`}"
  /\ JSON_parse (escapeNewlinesInsideStrings
                   (sanitizeCommonBreakers (lit "{`a`: [1, 2.5e-3], `b`: `x\ny, z`}")))
     = Normal (VObj [(lit "a", VArr [VNum (lit "1"); VNum (lit "2.5e-3")]);
                     (lit "b", VStr (lit "x" ++ [Ch.lf] ++ lit "y, z"))]).
Proof.
  apply (valid_json_unchanged (lit "{`a`: [1, 2.5e-3], `b`: `x\ny, z`}")).
  - reflexivity.
  - vm_compute. intuition discriminate.
  - vm_compute. intuition discriminate.
  - reflexivity.
Defined.

(** ** The repair pipeline *)

Lemma extract_wrapped (pre mid post : jsstring) :
  ~ In Ch.lbrace pre -> ~ In Ch.rbrace post ->
  extractJsonObject (pre ++ (Ch.lbrace :: mid ++ [Ch.rbrace]) ++ post)
  = Some (Ch.lbrace :: mid ++ [Ch.rbrace]).
Proof.
  intros Hpre Hpost. unfold extractJsonObject, indexOf, lastIndexOf.
  assert (S1 : first_index (fun x => x =? Ch.lbrace) 0%Z
                 (pre ++ (Ch.lbrace :: mid ++ [Ch.rbrace]) ++ post)
               = Z.of_nat (length pre)).
  { change ((Ch.lbrace :: mid ++ [Ch.rbrace]) ++ post)
      with (Ch.lbrace :: (mid ++ [Ch.rbrace]) ++ post).
    rewrite first_index_found; [lia | | apply N.eqb_refl].
    now apply eqb_char_false_notin. }
  assert (S2 : last_index (fun x => x =? Ch.rbrace) 0%Z
                 (pre ++ (Ch.lbrace :: mid ++ [Ch.rbrace]) ++ post)
               = Z.of_nat (length pre + S (length mid))).
  { replace (pre ++ (Ch.lbrace :: mid ++ [Ch.rbrace]) ++ post)
      with ((pre ++ Ch.lbrace :: mid) ++ Ch.rbrace :: post)
      by (rewrite <- !app_assoc; simpl; now rewrite <- app_assoc).
    rewrite last_index_found; [| lia | | apply N.eqb_refl].
    - rewrite length_app. simpl. lia.
    - now apply eqb_char_false_notin. }
  rewrite S1, S2.
  destruct (Z.eqb_spec (Z.of_nat (length pre)) (-1)) as [|_]; [lia|].
  destruct (Z.eqb_spec (Z.of_nat (length pre + S (length mid))) (-1)) as [|_]; [lia|].
  destruct (Z.leb_spec (Z.of_nat (length pre + S (length mid))) (Z.of_nat (length pre)))
    as [|_]; [lia|].
  simpl orb. cbv iota. f_equal.
  rewrite <- (slice_middle pre (Ch.lbrace :: mid ++ [Ch.rbrace]) post) at 2.
  f_equal. simpl length. rewrite length_app. simpl. lia.
Qed.

(** C1.  On every text the repair pipeline returns normally, never with an
    exception, and its answer is one of two.  When the text has no first
    opening brace with a later last closing brace, the answer is the 200
    response whose body is the envelope
    { content: [{ type: "text", text }] }  around the raw text, unchanged.
    When it has them, the candidate is the text from the one through the
    other: if the strict parser accepts the sanitized and escaped
    candidate, the answer is the 200 response whose body is the parsed
    value itself; if the strict parser throws, the answer is the envelope
    around the raw text again.  Every text is in one of these cases. *)
Theorem repair_text_total (rawText : jsstring) :
  (exists r, repair_text rawText = Normal r)
  /\ (no_candidate rawText ->
      repair_text rawText
      = Normal (Response 200
                  [(lit "Content-Type", lit "application/json");
                   (lit "Access-Control-Allow-Origin", lit "*")]
                  (Some (VObj [(lit "content",
                                VArr [VObj [(lit "type", VStr (lit "text"));
                                            (lit "text", VStr rawText)]])]))))
  /\ (forall pre mid post,
        rawText = pre ++ Ch.lbrace :: mid ++ Ch.rbrace :: post ->
        ~ In Ch.lbrace pre -> ~ In Ch.rbrace post ->
        (forall parsed,
            JSON_parse (escapeNewlinesInsideStrings
                          (sanitizeCommonBreakers (Ch.lbrace :: mid ++ [Ch.rbrace])))
            = Normal parsed ->
            repair_text rawText
            = Normal (Response 200
                        [(lit "Content-Type", lit "application/json");
                         (lit "Access-Control-Allow-Origin", lit "*")]
                        (Some parsed)))
        /\ (forall e,
               JSON_parse (escapeNewlinesInsideStrings
                             (sanitizeCommonBreakers (Ch.lbrace :: mid ++ [Ch.rbrace])))
               = Throw e ->
               repair_text rawText
               = Normal (Response 200
                           [(lit "Content-Type", lit "application/json");
                            (lit "Access-Control-Allow-Origin", lit "*")]
                           (Some (VObj [(lit "content",
                                         VArr [VObj [(lit "type", VStr (lit "text"));
                                                     (lit "text", VStr rawText)]])])))))
  /\ (no_candidate rawText
      \/ exists pre mid post,
          rawText = pre ++ Ch.lbrace :: mid ++ Ch.rbrace :: post
          /\ ~ In Ch.lbrace pre /\ ~ In Ch.rbrace post).
Proof.
  split; [|split; [|split]].
  - unfold repair_text.
    destruct (extractJsonObject rawText) as [candidate|]; [|eexists; reflexivity].
    destruct (truthy (VStr candidate)); [|eexists; reflexivity].
    unfold try_catch, bind.
    destruct (JSON_parse _); eexists; reflexivity.
  - intros Hn. unfold repair_text.
    destruct (extractJsonObject_cases rawText) as [[_ E] | [Hc _]];
      [now rewrite E | contradiction].
  - intros pre mid post Et Hpre Hpost.
    assert (E : extractJsonObject rawText = Some (Ch.lbrace :: mid ++ [Ch.rbrace])).
    { rewrite Et.
      replace (pre ++ Ch.lbrace :: mid ++ Ch.rbrace :: post)
        with (pre ++ (Ch.lbrace :: mid ++ [Ch.rbrace]) ++ post)
        by (simpl; now rewrite <- app_assoc).
      now apply extract_wrapped. }
    unfold repair_text. rewrite E. cbn [truthy].
    split; intros x P; rewrite P; reflexivity.
  - destruct (extractJsonObject_cases rawText)
      as [[Hn _] | [_ (pre & mid & post & Et & Hpre & Hpost & _)]].
    + now left.
    + right. now exists pre, mid, post.
Qed.

(** The two answers on one text each: the parsed value is the body itself,
    and the envelope holds the raw text, prose included. *)
Example repair_text_answers :
  repair_text (lit "Sure: {`n`: [1,]} done")
  = Normal (Response 200
              [(lit "Content-Type", lit "application/json");
               (lit "Access-Control-Allow-Origin", lit "*")]
              (Some (VObj [(lit "n", VArr [VNum (lit "1")])])))
  /\ repair_text (lit "Sure: {n: 1} done")
     = Normal (Response 200
                 [(lit "Content-Type", lit "application/json");
                  (lit "Access-Control-Allow-Origin", lit "*")]
                 (Some (VObj [(lit "content",
                               VArr [VObj [(lit "type", VStr (lit "text"));
                                           (lit "text",
                                            VStr (lit "Sure: {n: 1} done"))]])]))).
Proof. split; reflexivity. Qed.

(** The end-to-end examples of the repair pipeline. *)
Example repair_end_to_end :
  repair_text (lit "Here is the result:" ++ [Ch.lf]
               ++ lit "{`title`: `A" ++ [Ch.lf] ++ lit "B`, `tags`: [`x`,],}"
               ++ [Ch.lf] ++ lit "Thanks!")
  = Normal (parsed_response
              (VObj [(lit "title", VStr (lit "A" ++ [Ch.lf] ++ lit "B"));
                     (lit "tags", VArr [VStr (lit "x")])])).
Proof. reflexivity. Qed.

Example repair_fallback :
  repair_text (lit "I cannot produce JSON right now.")
  = Normal (fallback_response (VStr (lit "I cannot produce JSON right now."))).
Proof. reflexivity. Qed.

Example repair_fallback_on_syntax_error :
  repair_text (lit "{not json}")
  = Normal (fallback_response (VStr (lit "{not json}"))).
Proof. reflexivity. Qed.

(** ** The Gemini handlers *)






(** C8 (the defect).  On a vendor response with the two parts "a" and
    "b", the handler of src/api/gemini.js answers with the text "ab", and
    the earlier handler (src/unnamed/part_000) with the text "a" alone:
    it reads the first part only. *)
Theorem gemini0_reads_first_part_only :
  gemini_handler no_string two_parts_vendor post_request
  = Normal (Response 200 [content_type_json; allow_origin]
              (Some (text_envelope (VStr (lit "ab")))))
  /\ gemini0_handler no_string two_parts_vendor post_request
     = Normal (Response 200 [content_type_json; allow_origin]
                 (Some (text_envelope (VStr (lit "a")))))
  /\ gemini0_text two_parts = Normal (VStr (lit "a")).
Proof. repeat split; reflexivity. Qed.

(** ** The headers of the responses *)











(** The 405 answer of the two Gemini handlers names no allowed origin; the
    one of the Groq handler does. *)
Example method_not_allowed_headers :
  let get_request := Request (lit "GET") (Throw TypeError) in
  gemini_handler no_string no_vendor get_request
  = Normal (Response 405 [content_type_json]
              (Some (error_body (VStr (lit "Method not allowed")))))
  /\ gemini0_handler no_string no_vendor get_request
     = Normal (Response 405 [content_type_json]
                 (Some (error_body (VStr (lit "Method not allowed")))))
  /\ groq_handler no_string no_vendor get_request
     = Normal (Response 405 [content_type_json; allow_origin]
                 (Some (error_body (VStr (lit "Method not allowed"))))).
Proof. repeat split; reflexivity. Qed.


(** The three kinds of answer to a POST request, on the Groq handler: a
    vendor error, an exception, and a success. *)
Example groq_vendor_error :
  groq_handler no_string
    (fun _ _ => Normal (VObj [(lit "error", VStr (lit "quota"))])) post_request
  = Normal (Response 400 [content_type_json; allow_origin]
              (Some (error_body (VStr (lit "quota"))))).
Proof. reflexivity. Qed.

Example groq_exception :
  groq_handler no_string no_vendor post_request
  = Normal (Response 500 [content_type_json; allow_origin]
              (Some (error_body (VStr (lit "TypeError"))))).
Proof. reflexivity. Qed.

Example groq_success :
  groq_handler no_string
    (fun _ _ =>
       Normal (VObj [(lit "choices",
                      VArr [VObj [(lit "message",
                                   VObj [(lit "content",
                                          VStr (lit "Sure: {`n`: [1,]}"))])]])]))
    post_request
  = Normal (Response 200 [content_type_json; allow_origin]
              (Some (VObj [(lit "n", VArr [VNum (lit "1")])]))).
Proof. reflexivity. Qed.

(** * Further properties *)

(** ** The scanner *)

Lemma scan_char_keeps_flags_invariant (st : scanner) (ch : char) :
  (escaped st = true -> inString st = true) ->
  escaped (scan_char st ch) = true -> inString (scan_char st ch) = true.
Proof.
  destruct st as [o i e]. unfold scan_char. simpl. intros H.
  destruct i, e; simpl;
    repeat (match goal with
            | |- context [if ?b then _ else _] => destruct b
            end; simpl);
    auto.
Qed.

Lemma scan_keeps_flags_invariant (s : jsstring) :
  forall st, (escaped st = true -> inString st = true) ->
             escaped (scan st s) = true -> inString (scan st s) = true.
Proof.
  induction s as [|ch s IH]; intros st H; [exact H|].
  simpl. apply IH. now apply scan_char_keeps_flags_invariant.
Qed.

(** X1.  Whatever the text read so far, the scanner is after a backslash
    only inside a string: outside a string [escaped] is false. *)
Theorem escaped_only_inside_string (s : jsstring) :
  escaped (scan scanner_init s) = true -> inString (scan scanner_init s) = true.
Proof.
  apply scan_keeps_flags_invariant. simpl. intros H. discriminate H.
Qed.

Lemma escaped_only_inside_string_witness :
  inString (scan scanner_init (lit "[`a\")) = true.
Proof. apply (escaped_only_inside_string (lit "[`a\")). reflexivity. Defined.

Lemma count_raw_app (p : char -> bool) (st : scanner) (a b : jsstring) :
  count_raw p st (a ++ b) = (count_raw p st a + count_raw p (scan st a) b)%nat.
Proof.
  revert st. induction a as [|ch a IH]; intros st; [reflexivity|].
  simpl. rewrite IH. lia.
Qed.

(** Nothing of what one iteration appends is a control character that
    would be read raw inside a string. *)
Lemma count_raw_step (p : char -> bool) (i e : bool) (ch : char) :
  (forall c, p c = true -> c = Ch.lf \/ c = Ch.cr \/ c = Ch.tab) ->
  count_raw p (Scanner [] i e) (out (scan_char (Scanner [] i e) ch)) = 0%nat.
Proof.
  intros Hp.
  assert (B : p Ch.backslash = false).
  { destruct (p Ch.backslash) eqn:E; [|reflexivity].
    destruct (Hp _ E) as [H | [H | H]]; discriminate H. }
  destruct i; [destruct e|]; unfold scan_char; simpl; try reflexivity;
    [|destruct (ch =? Ch.dquote); reflexivity].
  destruct (N.eqb_spec ch Ch.backslash) as [-> | Hb]; simpl; [now rewrite B|].
  destruct (N.eqb_spec ch Ch.dquote) as [-> | Hq]; simpl.
  { destruct (p Ch.dquote) eqn:E; [|reflexivity].
    destruct (Hp _ E) as [H | [H | H]]; discriminate H. }
  destruct (N.eqb_spec ch Ch.lf) as [-> | Hl]; simpl; [now rewrite B|].
  destruct (N.eqb_spec ch Ch.cr) as [-> | Hc]; simpl; [reflexivity|].
  destruct (N.eqb_spec ch Ch.tab) as [-> | Ht]; simpl; [now rewrite B|].
  destruct (p ch) eqn:E; [|reflexivity].
  destruct (Hp _ E) as [H | [H | H]]; contradiction.
Qed.

Lemma count_raw_rescan (p : char -> bool) (st : scanner) (s : jsstring) :
  (forall c, p c = true -> c = Ch.lf \/ c = Ch.cr \/ c = Ch.tab) ->
  count_raw p (flags st) (out (scan (flags st) s)) = 0%nat.
Proof.
  intros Hp. revert st. induction s as [|ch s IH]; intros st; [reflexivity|].
  simpl scan. fold (scan (scan_char (flags st) ch) s).
  rewrite (scan_out (scan_char (flags st) ch) s). simpl out.
  rewrite count_raw_app.
  unfold flags at 1 2 3. rewrite (count_raw_step p _ _ ch Hp), rescan_step.
  fold (flags st).
  rewrite (count_raw_flags p (scan_char (flags st) ch)). now rewrite IH.
Qed.

(** X2.  In the output of the scanner no line feed, carriage return or tab
    is left where the scanner reads it raw inside a string. *)
Theorem escape_leaves_no_raw_control (s : jsstring) :
  raw_cr (escapeNewlinesInsideStrings s) = 0%nat
  /\ raw_lf_tab (escapeNewlinesInsideStrings s) = 0%nat.
Proof.
  unfold raw_cr, raw_lf_tab, escapeNewlinesInsideStrings.
  change scanner_init with (flags scanner_init).
  split; apply count_raw_rescan; intros c H.
  - apply N.eqb_eq in H. auto.
  - apply orb_true_iff in H. destruct H as [H | H]; apply N.eqb_eq in H; auto.
Qed.

(** After a backslash the scanner copies even a raw line feed: the pair
    stays as it is, and the strict parser refuses it. *)
Example escape_keeps_escaped_line_feed :
  escapeNewlinesInsideStrings (lit "[`a\" ++ [Ch.lf] ++ lit "`]")
  = lit "[`a\" ++ [Ch.lf] ++ lit "`]"
  /\ JSON_parse (lit "[`a\" ++ [Ch.lf] ++ lit "`]") = Throw SyntaxError.
Proof. split; reflexivity. Qed.

(** Without a control character to repair, an iteration copies. *)
Lemma scan_char_copies (i e : bool) (ch : char) :
  (if i && negb e && (ch =? Ch.cr)%N then 1 else 0)%nat = 0%nat ->
  (if i && negb e && ((ch =? Ch.lf)%N || (ch =? Ch.tab)%N) then 1 else 0)%nat = 0%nat ->
  out (scan_char (Scanner [] i e) ch) = [ch].
Proof.
  destruct i; [destruct e|]; unfold scan_char; simpl; try reflexivity.
  - destruct (ch =? Ch.backslash); [reflexivity|].
    destruct (ch =? Ch.dquote); [reflexivity|].
    destruct (ch =? Ch.lf); [discriminate|].
    destruct (ch =? Ch.cr); [discriminate|].
    destruct (ch =? Ch.tab); [discriminate | reflexivity].
  - destruct (ch =? Ch.dquote); reflexivity.
Qed.

Lemma scan_copies (s : jsstring) :
  forall st,
    count_raw (fun c => c =? Ch.cr) (flags st) s = 0%nat ->
    count_raw (fun c => (c =? Ch.lf) || (c =? Ch.tab)) (flags st) s = 0%nat ->
    out (scan (flags st) s) = s.
Proof.
  induction s as [|ch s IH]; intros st H1 H2; [reflexivity|].
  simpl in H1, H2.
  simpl scan. fold (scan (scan_char (flags st) ch) s).
  rewrite (scan_out (scan_char (flags st) ch) s). simpl out.
  unfold flags at 1. rewrite scan_char_copies by lia.
  rewrite IH; [reflexivity | |];
    rewrite <- count_raw_flags; unfold flags in *; simpl in *; lia.
Qed.

(** X3.  The scanner returns a text unchanged exactly when it reads no
    line feed, carriage return or tab raw inside a string of that text. *)
Theorem escape_unchanged_iff (s : jsstring) :
  escapeNewlinesInsideStrings s = s <-> raw_cr s = 0%nat /\ raw_lf_tab s = 0%nat.
Proof.
  split.
  - intros E. rewrite <- E. unfold raw_cr, raw_lf_tab, escapeNewlinesInsideStrings.
    change scanner_init with (flags scanner_init).
    split; apply count_raw_rescan; intros c H.
    + apply N.eqb_eq in H. auto.
    + apply orb_true_iff in H. destruct H as [H | H]; apply N.eqb_eq in H; auto.
  - intros [H1 H2]. unfold escapeNewlinesInsideStrings.
    change scanner_init with (flags scanner_init). now apply scan_copies.
Qed.

(** X4.  When the scanner is outside a string after the text [a], the
    output for [a ++ b] is the output for [a] followed by the output for
    [b]: texts that end outside a string are repaired apart. *)
Theorem escape_app_outside (a b : jsstring) :
  inString (scan scanner_init a) = false ->
  escapeNewlinesInsideStrings (a ++ b)
  = escapeNewlinesInsideStrings a ++ escapeNewlinesInsideStrings b.
Proof.
  intros Hi. rewrite escape_app. f_equal.
  assert (He : escaped (scan scanner_init a) = false).
  { destruct (escaped (scan scanner_init a)) eqn:E; [|reflexivity].
    apply scan_keeps_flags_invariant in E; [congruence|].
    simpl. intros H. discriminate H. }
  now rewrite (flags_eq _ _ _ Hi He).
Qed.

Lemma escape_app_outside_witness :
  escapeNewlinesInsideStrings (lit "{`a`: `x`, " ++ lit "`b`: `y" ++ [Ch.lf] ++ lit "z`}")
  = escapeNewlinesInsideStrings (lit "{`a`: `x`, ")
    ++ escapeNewlinesInsideStrings (lit "`b`: `y" ++ [Ch.lf] ++ lit "z`}").
Proof.
  apply (escape_app_outside (lit "{`a`: `x`, ") (lit "`b`: `y" ++ [Ch.lf] ++ lit "z`}")).
  reflexivity.
Defined.

(** Inside a string the same split fails: the second part is then read as
    if it began outside. *)
Example escape_app_inside_differs :
  escapeNewlinesInsideStrings (lit "[`a" ++ ([Ch.lf] ++ lit "b`]"))
  = lit "[`a\nb`]"
  /\ escapeNewlinesInsideStrings (lit "[`a")
     ++ escapeNewlinesInsideStrings ([Ch.lf] ++ lit "b`]")
     = lit "[`a" ++ [Ch.lf] ++ lit "b`]".
Proof. split; reflexivity. Qed.

(** *** A string literal through the scanner and the strict parser *)

Lemma scan_repairable (body : jsstring) :
  Forall repairable body ->
  forall o, scan (Scanner o true false) body
            = Scanner (o ++ flat_map escape_raw_char body) true false.
Proof.
  induction 1 as [|c body (Hq & Hb & Hc) _ IH]; intros o.
  - simpl. now rewrite app_nil_r.
  - simpl scan. fold (scan (scan_char (Scanner o true false) c) body).
    assert (E : scan_char (Scanner o true false) c
                = Scanner (o ++ escape_raw_char c) true false).
    { unfold scan_char, escape_raw_char. simpl.
      destruct (N.eqb_spec c Ch.backslash); [contradiction|].
      destruct (N.eqb_spec c Ch.dquote); [contradiction|].
      destruct (c =? Ch.lf); [reflexivity|].
      destruct (c =? Ch.cr); [now rewrite app_nil_r|].
      destruct (c =? Ch.tab); reflexivity. }
    rewrite E, IH. simpl flat_map. now rewrite app_assoc.
Qed.

Lemma escape_string_literal (body : jsstring) :
  Forall repairable body ->
  escapeNewlinesInsideStrings (string_literal body)
  = string_literal (flat_map escape_raw_char body).
Proof.
  intros H. unfold escapeNewlinesInsideStrings, string_literal.
  change (scan scanner_init (Ch.dquote :: body ++ [Ch.dquote]))
    with (scan (Scanner [Ch.dquote] true false) (body ++ [Ch.dquote])).
  rewrite scan_app, (scan_repairable body H). reflexivity.
Qed.

(** The tokenizer reads back what the scanner wrote for a repairable body:
    the body without its carriage returns. *)
Lemma lex_string_repaired (body : jsstring) :
  Forall repairable body ->
  forall acc rest,
    lex_string (flat_map escape_raw_char body ++ Ch.dquote :: rest) acc
    = Some (rev acc ++ filter (fun c => negb (c =? Ch.cr)) body, rest).
Proof.
  induction 1 as [|c body (Hq & Hb & Hc) _ IH]; intros acc rest.
  - simpl. now rewrite app_nil_r.
  - simpl flat_map. unfold escape_raw_char at 1.
    destruct (N.eqb_spec c Ch.lf) as [-> | Hl].
    { simpl. rewrite IH. simpl. now rewrite <- app_assoc. }
    destruct (N.eqb_spec c Ch.cr) as [-> | Hr].
    { simpl. now rewrite IH. }
    destruct (N.eqb_spec c Ch.tab) as [-> | Ht].
    { simpl. rewrite IH. simpl. now rewrite <- app_assoc. }
    assert (H32 : 32 <= c) by (destruct Hc as [H | [H | [H | H]]]; [exact H | | |]; contradiction).
    simpl app. cbn [lex_string].
    destruct (N.eqb_spec c Ch.dquote); [contradiction|].
    destruct (N.eqb_spec c Ch.backslash); [contradiction|].
    destruct (N.ltb_spec c 32); [lia|].
    rewrite IH. cbn [filter].
    destruct (N.eqb_spec c Ch.cr); [contradiction|].
    simpl. now rewrite <- app_assoc.
Qed.

Lemma JSON_parse_string_literal (s v : jsstring) :
  lex_string (s ++ [Ch.dquote]) [] = Some (v, []) ->
  JSON_parse (string_literal s) = Normal (VStr v).
Proof.
  intros H. unfold JSON_parse, tokenize, string_literal.
  change (length (Ch.dquote :: s ++ [Ch.dquote])) with (S (length (s ++ [Ch.dquote]))).
  change (tokenize_fuel (S (length (s ++ [Ch.dquote]))) (Ch.dquote :: s ++ [Ch.dquote]))
    with (match lex_string (s ++ [Ch.dquote]) [] with
          | Some (v, after) =>
              cons_token (TString v) (tokenize_fuel (length (s ++ [Ch.dquote])) after)
          | None => None
          end).
  rewrite H. destruct (length (s ++ [Ch.dquote])); reflexivity.
Qed.

(** X5.  A string literal whose body has no quote, no backslash and no
    control character but line feeds, carriage returns and tabs is made
    valid by the scanner: the strict parser reads the scanner's output as
    the string of that body, without its carriage returns. *)
Theorem escape_repairs_string_literal (body : jsstring) :
  Forall repairable body ->
  JSON_parse (escapeNewlinesInsideStrings (string_literal body))
  = Normal (VStr (filter (fun c => negb (c =? Ch.cr)) body)).
Proof.
  intros H. rewrite (escape_string_literal body H).
  apply JSON_parse_string_literal.
  now rewrite (lex_string_repaired body H [] []).
Qed.

Lemma escape_repairs_string_literal_witness :
  JSON_parse (escapeNewlinesInsideStrings
                (string_literal (lit "a" ++ [Ch.cr; Ch.lf; Ch.tab] ++ lit "b c")))
  = Normal (VStr (filter (fun c => negb (c =? Ch.cr))
                    (lit "a" ++ [Ch.cr; Ch.lf; Ch.tab] ++ lit "b c"))).
Proof.
  apply (escape_repairs_string_literal (lit "a" ++ [Ch.cr; Ch.lf; Ch.tab] ++ lit "b c")).
  repeat constructor; try discriminate;
    first [ left; discriminate
          | right; left; reflexivity
          | right; right; left; reflexivity
          | right; right; right; reflexivity ].
Defined.

(** The other control characters are not repaired: a raw form feed stays,
    and the strict parser refuses the output. *)
Example escape_leaves_form_feed :
  escapeNewlinesInsideStrings (string_literal [12]) = string_literal [12]
  /\ JSON_parse (escapeNewlinesInsideStrings (string_literal [12])) = Throw SyntaxError.
Proof. split; reflexivity. Qed.

(** ** The extractor, again *)

(** X6.  A candidate of the extractor is never empty, so the test of the
    handler on it is false for [null] only, and extracting again from a
    candidate gives the candidate back. *)
Theorem extractJsonObject_idempotent (t c : jsstring) :
  extractJsonObject t = Some c ->
  truthy (VStr c) = true /\ extractJsonObject c = Some c.
Proof.
  intros H.
  destruct (extractJsonObject_cases t)
    as [[_ E] | [_ (pre & mid & post & _ & _ & _ & E)]].
  - rewrite E in H. discriminate H.
  - rewrite E in H. injection H as <-. split; [reflexivity|].
    pose proof (extract_wrapped [] mid [] (fun x => x) (fun x => x)) as W.
    simpl in W. rewrite app_nil_r in W. exact W.
Qed.

Lemma extractJsonObject_idempotent_witness :
  truthy (VStr (lit "{`a`: {}}")) = true
  /\ extractJsonObject (lit "{`a`: {}}") = Some (lit "{`a`: {}}").
Proof.
  apply (extractJsonObject_idempotent (lit "} so: {`a`: {}} ok") (lit "{`a`: {}}")).
  reflexivity.
Defined.

(** ** The sanitizer, again *)

Lemma in_replace_char (x c : char) (by_ s : jsstring) :
  In x (replace_char c by_ s) -> In x by_ \/ (In x s /\ x <> c).
Proof.
  induction s as [|y s IH]; simpl; [intros []|].
  intros H. apply in_app_or in H. destruct H as [H | H].
  - destruct (N.eqb_spec y c) as [-> | Hy]; [now left|].
    destruct H as [<- | []]. right. split; [now left | assumption].
  - destruct (IH H) as [Hb | [Hs Hc]]; [now left | right; split; [now right | assumption]].
Qed.

(** The comma rule writes only characters of its input. *)
Lemma in_remove_trailing_commas (x : char) (n : nat) :
  forall s, (length s <= n)%nat -> In x (remove_trailing_commas s) -> In x s.
Proof.
  induction n as [|n IH]; intros s Hn.
  { destruct s; [intros [] | simpl in Hn; lia]. }
  destruct s as [|c rest]; [intros []|].
  rewrite remove_trailing_commas_cons.
  destruct (match_trailing_comma (c :: rest)) as [[closer after]|] eqn:E.
  - pose proof (match_trailing_comma_shorter _ _ _ E) as L. simpl in E.
    destruct (c =? Ch.comma); [|discriminate].
    apply match_space_closer_inv in E. destruct E as (ws & -> & _ & _).
    intros [<- | H].
    + right. apply in_elt.
    + right. apply in_or_app. right. right.
      apply (IH after); [simpl in *; lia | assumption].
  - intros [<- | H]; [now left | right].
    apply (IH rest); [simpl in Hn; lia | assumption].
Qed.

(** X7.  The output of the sanitizer has no U+2028 and no U+2029. *)
Theorem sanitize_leaves_no_separator (s : jsstring) :
  ~ In Ch.line_separator (sanitizeCommonBreakers s)
  /\ ~ In Ch.paragraph_separator (sanitizeCommonBreakers s).
Proof.
  unfold sanitizeCommonBreakers. split; intros H;
    apply (in_remove_trailing_commas _ _ _ (le_n _)) in H;
    apply in_replace_char in H; destruct H as [H | [H Hp]].
  - simpl in H. intuition discriminate.
  - apply in_replace_char in H. destruct H as [H | [_ Hl]].
    + simpl in H. intuition discriminate.
    + now apply Hl.
  - simpl in H. intuition discriminate.
  - now apply Hp.
Qed.

Lemma filter_kept_spaces (ws : jsstring) :
  Forall (fun x => is_space x = true) ws -> filter kept_by_comma_rule ws = [].
Proof.
  induction 1 as [|x ws Hx _ IH]; [reflexivity|].
  simpl. unfold kept_by_comma_rule at 1. rewrite Hx, andb_false_r. exact IH.
Qed.

Lemma closer_kept (c : char) : is_closer c = true -> kept_by_comma_rule c = true.
Proof.
  intros H. unfold kept_by_comma_rule. rewrite (closer_not_space c H).
  unfold is_closer in H. apply orb_true_iff in H.
  destruct H as [H | H]; apply N.eqb_eq in H; subst c; reflexivity.
Qed.

Lemma remove_trailing_commas_keeps (n : nat) :
  forall s, (length s <= n)%nat ->
            filter kept_by_comma_rule (remove_trailing_commas s)
            = filter kept_by_comma_rule s
            /\ (length (remove_trailing_commas s) <= length s)%nat.
Proof.
  induction n as [|n IH]; intros s Hn.
  { destruct s; [split; [reflexivity | apply le_n] | simpl in Hn; lia]. }
  destruct s as [|c rest]; [split; [reflexivity | apply le_n]|].
  rewrite remove_trailing_commas_cons.
  destruct (match_trailing_comma (c :: rest)) as [[closer after]|] eqn:E.
  - pose proof (match_trailing_comma_shorter _ _ _ E) as L. simpl in E.
    destruct (N.eqb_spec c Ch.comma) as [-> | _]; [|discriminate].
    apply match_space_closer_inv in E. destruct E as (ws & -> & Hws & Hc).
    destruct (IH after ltac:(simpl in *; lia)) as (F & Len).
    split.
    + cbn [filter]. rewrite (closer_kept _ Hc), F.
      change (kept_by_comma_rule Ch.comma) with false. cbv iota.
      rewrite filter_app, (filter_kept_spaces ws Hws).
      cbn [filter app]. now rewrite (closer_kept _ Hc).
    + simpl in *. rewrite length_app. simpl. lia.
  - destruct (IH rest ltac:(simpl in Hn; lia)) as (F & Len).
    split; [cbn [filter]; now rewrite F | simpl; lia].
Qed.

(** X8.  The comma rule of the sanitizer deletes only commas and
    whitespace: the other characters of the text it receives from the
    separator rules are kept, in order, and its output is not longer. *)
Theorem sanitize_deletes_commas_and_spaces_only (s : jsstring) :
  filter kept_by_comma_rule (sanitizeCommonBreakers s)
  = filter kept_by_comma_rule (replace_separators s)
  /\ (length (sanitizeCommonBreakers s) <= length (replace_separators s))%nat.
Proof.
  rewrite sanitize_unfold.
  exact (remove_trailing_commas_keeps _ (replace_separators s) (le_n _)).
Qed.

(** The sanitizer is not idempotent: a second pass removes a comma that
    the first pass has left before a closer. *)
Example sanitize_twice :
  sanitizeCommonBreakers (lit "[1,,]") = lit "[1,]"
  /\ sanitizeCommonBreakers (sanitizeCommonBreakers (lit "[1,,]")) = lit "[1]".
Proof. split; reflexivity. Qed.

(** ** The repair pipeline, again *)

(** X9.  Prose around a valid JSON object does not matter: when the raw
    text is a text without opening brace, then an object text that the
    strict parser accepts and the sanitizer leaves alone, then a text
    without closing brace, the pipeline answers with the value of the
    object. *)
Theorem repair_text_wrapped (pre mid post : jsstring) (v : value) :
  ~ In Ch.lbrace pre -> ~ In Ch.rbrace post ->
  JSON_parse (Ch.lbrace :: mid ++ [Ch.rbrace]) = Normal v ->
  ~ In Ch.line_separator mid -> ~ In Ch.paragraph_separator mid ->
  trailing_comma_in (Ch.lbrace :: mid ++ [Ch.rbrace]) = false ->
  repair_text (pre ++ (Ch.lbrace :: mid ++ [Ch.rbrace]) ++ post)
  = Normal (parsed_response v).
Proof.
  intros Hpre Hpost Hv Hl Hp Hc. unfold repair_text.
  rewrite (extract_wrapped pre mid post Hpre Hpost). cbn [truthy].
  rewrite sanitize_absent; [| | |assumption].
  - rewrite (escape_valid_json _ v Hv), Hv. reflexivity.
  - intros [H | H]; [discriminate H|].
    apply in_app_or in H. destruct H as [H | [H | []]]; [now apply Hl | discriminate H].
  - intros [H | H]; [discriminate H|].
    apply in_app_or in H. destruct H as [H | [H | []]]; [now apply Hp | discriminate H].
Qed.

Lemma repair_text_wrapped_witness :
  repair_text (lit "Result } : " ++ (Ch.lbrace :: lit "`n`: [1, {}]" ++ [Ch.rbrace])
               ++ lit " { done")
  = Normal (parsed_response (VObj [(lit "n", VArr [VNum (lit "1"); VObj []])])).
Proof.
  apply (repair_text_wrapped (lit "Result } : ") (lit "`n`: [1, {}]") (lit " { done")).
  - vm_compute. intuition discriminate.
  - vm_compute. intuition discriminate.
  - reflexivity.
  - vm_compute. intuition discriminate.
  - vm_compute. intuition discriminate.
  - reflexivity.
Defined.

(** ** The Groq handler, again *)

Lemma get_readable (v : value) (k : jsstring) :
  readable v = true -> get v k = Normal (get_own v k).
Proof. destruct v; simpl; intros H; (discriminate H || reflexivity). Qed.

Lemma truthy_readable (v : value) : truthy v = true -> readable v = true.
Proof. destruct v; simpl; intros H; (discriminate H || reflexivity). Qed.

Lemma or_else_object_readable (body : value) :
  readable (or_else body (VObj [])) = true.
Proof.
  unfold or_else. destruct (truthy body) eqn:E; [now apply truthy_readable | reflexivity].
Qed.


(** Whatever the body of the request is, the Groq handler reaches the
    vendor call. *)
Lemma groq_try_post fetch_json (body : value) :
  groq_try fetch_json (post_of body) =
  data <- fetch_json groq_url
            (groq_payload
               (groq_messages (get_own (or_else body (VObj [])) (lit "system"))
                              (get_own (or_else body (VObj [])) (lit "messages")))) ;;
  if truthy (opt_get data (lit "error")) then
    Normal (Response 400 [content_type_json; allow_origin]
              (Some (error_body (opt_get data (lit "error")))))
  else repair_value (groq_raw_text data).
Proof.
  unfold groq_try, post_of. cbn [json bind].
  rewrite !(get_readable _ _ (or_else_object_readable body)). reflexivity.
Qed.

Lemma groq_handler_post String_of_exn fetch_json (body : value) :
  groq_handler String_of_exn fetch_json (post_of body) =
  try_catch (groq_try fetch_json (post_of body))
    (fun error =>
       let 'Exn message := error in
       Normal (Response 500 [content_type_json; allow_origin]
                 (Some (error_body (or_else message (VStr (String_of_exn error))))))).
Proof. reflexivity. Qed.



(** A vendor answer without choices gives the fallback envelope around the
    empty text. *)
Example groq_without_choices :
  groq_handler no_string (fun _ _ => Normal (VObj [])) (post_of (VObj []))
  = Normal (fallback_response (VStr [])).
Proof. reflexivity. Qed.



Lemma groq_raw_text_content (data : value) :
  groq_raw_text data = or_else (groq_content data) (VStr []).
Proof. reflexivity. Qed.

(** X12.  When the vendor answers without error and the content of the
    first choice is truthy and is a number, a boolean or an object (a
    number other than zero, true, or any object), the Groq handler answers
    500: the extractor is called on a value without [indexOf].  A falsy
    content (zero, false, null, the empty string, or none) is replaced by
    the empty string before and gives the fallback envelope. *)
Theorem groq_content_not_text
  (String_of_exn : exn -> jsstring)
  (fetch_json : jsstring -> value -> completion value) (body data : value) :
  answers fetch_json data ->
  truthy (opt_get data (lit "error")) = false ->
  truthy (groq_content data) = true ->
  no_text_no_array (groq_content data) = true ->
  exists r, groq_handler String_of_exn fetch_json (post_of body) = Normal r
            /\ server_error r.
Proof.
  intros Hf He Ht Hc. rewrite groq_handler_post, groq_try_post, Hf.
  cbn [bind]. rewrite He, groq_raw_text_content. unfold or_else. rewrite Ht.
  destruct (groq_content data); try discriminate Hc;
    (eexists; split; [reflexivity | repeat split; eexists; reflexivity]).
Qed.

Lemma groq_content_not_text_witness :
  exists r,
    groq_handler no_string
      (fun _ _ =>
         Normal (VObj [(lit "choices",
                        VArr [VObj [(lit "message",
                                     VObj [(lit "content", VNum (lit "42"))])]])]))
      (post_of (VObj []))
    = Normal r
    /\ server_error r.
Proof.
  apply (groq_content_not_text no_string
           (fun _ _ =>
              Normal (VObj [(lit "choices",
                             VArr [VObj [(lit "message",
                                          VObj [(lit "content", VNum (lit "42"))])]])]))
           (VObj [])
           (VObj [(lit "choices",
                   VArr [VObj [(lit "message",
                                VObj [(lit "content", VNum (lit "42"))])]])])).
  - intros url payload. reflexivity.
  - reflexivity.
  - reflexivity.
  - reflexivity.
Defined.

(** A content that is false, zero, or a number whose double is zero is
    falsy: the handler answers with the fallback envelope around the empty
    string. *)
Example groq_content_falsy :
  let answer content :=
    fun (_ : list N) (_ : value) =>
      Normal (VObj [(lit "choices",
                     VArr [VObj [(lit "message", VObj [(lit "content", content)])]])]) in
  groq_handler no_string (answer (VBool false)) (post_of (VObj []))
  = Normal (fallback_response (VStr []))
  /\ groq_handler no_string (answer (VNum (lit "0.0"))) (post_of (VObj []))
     = Normal (fallback_response (VStr []))
  /\ groq_handler no_string (answer (VNum (lit "1e-400"))) (post_of (VObj []))
     = Normal (fallback_response (VStr [])).
Proof. repeat split; reflexivity. Qed.

(** An array as content has [indexOf] and [slice] of its own: without a
    brace element it is wrapped as it is, with one of each in order the
    handler answers 500. *)
Example groq_content_array :
  groq_handler no_string
    (fun _ _ =>
       Normal (VObj [(lit "choices",
                      VArr [VObj [(lit "message",
                                   VObj [(lit "content", VArr [VStr (lit "x")])])]])]))
    (post_of (VObj []))
  = Normal (fallback_response (VArr [VStr (lit "x")]))
  /\ groq_handler no_string
       (fun _ _ =>
          Normal (VObj [(lit "choices",
                         VArr [VObj [(lit "message",
                                      VObj [(lit "content",
                                             VArr [VStr (lit "{"); VStr (lit "}")])])]])]))
       (post_of (VObj []))
     = Normal (Response 500 [content_type_json; allow_origin]
                 (Some (error_body (VStr (lit "TypeError"))))).
Proof. split; reflexivity. Qed.



(** ** The Gemini handlers, again *)

Lemma find_user_first (pre : list value) (m : value) (post : list value) :
  Forall other_role pre -> has_role_user m = true ->
  find_user (pre ++ m :: post) = Normal m.
Proof.
  intros Hpre Hm. induction Hpre as [|x pre (Hr & Hu) _ IH].
  - simpl. assert (Hrm : readable m = true).
    { destruct m; try reflexivity; discriminate Hm. }
    rewrite (get_readable m _ Hrm). cbn [bind].
    unfold has_role_user in Hm. now rewrite Hm.
  - simpl. rewrite (get_readable x _ Hr). cbn [bind].
    unfold has_role_user in Hu. now rewrite Hu.
Qed.

(** The two Gemini handlers depend on a readable body through its system
    text and the message they find. *)
Lemma gemini_try_depends ToString fetch_json (b1 b2 found : value) :
  readable b1 = true -> readable b2 = true ->
  get_own b1 (lit "system") = get_own b2 (lit "system") ->
  messages_find_user (get_own b1 (lit "messages")) = Normal found ->
  messages_find_user (get_own b2 (lit "messages")) = Normal found ->
  gemini_try ToString fetch_json (post_of b1)
  = gemini_try ToString fetch_json (post_of b2)
  /\ gemini0_try ToString fetch_json (post_of b1)
     = gemini0_try ToString fetch_json (post_of b2).
Proof.
  intros H1 H2 Hs F1 F2. unfold gemini_try, gemini0_try, post_of. cbn [json bind].
  rewrite !(get_readable b1 _ H1), !(get_readable b2 _ H2). cbn [bind].
  rewrite F1, F2, Hs. split; reflexivity.
Qed.

Lemma gemini_handler_post ToString fetch_json (body : value) :
  gemini_handler ToString fetch_json (post_of body) =
  try_catch (gemini_try ToString fetch_json (post_of body))
    (fun error =>
       let 'Exn message := error in
       Normal (Response 500 [content_type_json; allow_origin]
                 (Some (error_body message)))).
Proof. reflexivity. Qed.

Lemma gemini0_handler_post ToString fetch_json (body : value) :
  gemini0_handler ToString fetch_json (post_of body) =
  try_catch (gemini0_try ToString fetch_json (post_of body))
    (fun error =>
       let 'Exn message := error in
       Normal (Response 500 [content_type_json; allow_origin]
                 (Some (error_body message)))).
Proof. reflexivity. Qed.

(** X14.  The two Gemini handlers send the first message with the role
    user and nothing else of the conversation: with messages of other
    roles before it and any messages after it, they answer as for a
    request with that message alone. *)
Theorem gemini_uses_first_user_message
  (ToString : value -> jsstring)
  (fetch_json : jsstring -> value -> completion value)
  (body : value) (pre : list value) (m : value) (post : list value) :
  readable body = true ->
  get_own body (lit "messages") = VArr (pre ++ m :: post) ->
  Forall other_role pre -> has_role_user m = true ->
  gemini_handler ToString fetch_json (post_of body)
  = gemini_handler ToString fetch_json
      (post_of (chat (get_own body (lit "system")) [m]))
  /\ gemini0_handler ToString fetch_json (post_of body)
     = gemini0_handler ToString fetch_json
         (post_of (chat (get_own body (lit "system")) [m])).
Proof.
  intros Hb Hm Hpre Hu.
  rewrite !gemini_handler_post, !gemini0_handler_post.
  destruct (gemini_try_depends ToString fetch_json body
              (chat (get_own body (lit "system")) [m]) m Hb eq_refl eq_refl)
    as (E & E0).
  - rewrite Hm. cbn [messages_find_user]. now apply find_user_first.
  - change (get_own (chat (get_own body (lit "system")) [m]) (lit "messages"))
      with (VArr ([] ++ m :: [])).
    cbn [messages_find_user]. now apply find_user_first.
  - now rewrite E, E0.
Qed.

Lemma gemini_uses_first_user_message_witness :
  let history :=
    [VObj [(lit "role", VStr (lit "assistant")); (lit "content", VStr (lit "Hello"))];
     VObj [(lit "role", VStr (lit "user")); (lit "content", VStr (lit "first"))];
     VObj [(lit "role", VStr (lit "user")); (lit "content", VStr (lit "second"))]] in
  gemini_handler no_string two_parts_vendor (post_of (chat (VStr (lit "Be brief")) history))
  = gemini_handler no_string two_parts_vendor
      (post_of (chat (get_own (chat (VStr (lit "Be brief")) history) (lit "system"))
                     [VObj [(lit "role", VStr (lit "user"));
                            (lit "content", VStr (lit "first"))]]))
  /\ gemini0_handler no_string two_parts_vendor
       (post_of (chat (VStr (lit "Be brief")) history))
     = gemini0_handler no_string two_parts_vendor
         (post_of (chat (get_own (chat (VStr (lit "Be brief")) history) (lit "system"))
                        [VObj [(lit "role", VStr (lit "user"));
                               (lit "content", VStr (lit "first"))]])).
Proof.
  intros history.
  apply (gemini_uses_first_user_message no_string two_parts_vendor
           (chat (VStr (lit "Be brief")) history)
           [VObj [(lit "role", VStr (lit "assistant")); (lit "content", VStr (lit "Hello"))]]
           (VObj [(lit "role", VStr (lit "user")); (lit "content", VStr (lit "first"))])
           [VObj [(lit "role", VStr (lit "user")); (lit "content", VStr (lit "second"))]]).
  - reflexivity.
  - reflexivity.
  - repeat constructor.
  - reflexivity.
Defined.

Lemma get_own_vendor_error (parts : list value) :
  get_own (vendor_data parts) (lit "error") = VUndefined.
Proof. reflexivity. Qed.





(** A system value that does not convert to a string makes the template
    literal throw: both Gemini handlers answer 500, whatever the vendor
    would answer. *)
Example gemini_system_not_convertible :
  let body := chat (VObj [(lit "toString", VNum (lit "1"))]) [] in
  gemini_handler no_string two_parts_vendor (post_of body)
  = Normal (Response 500 [content_type_json; allow_origin]
              (Some (error_body (VStr (lit "TypeError")))))
  /\ gemini0_handler no_string two_parts_vendor (post_of body)
     = Normal (Response 500 [content_type_json; allow_origin]
                 (Some (error_body (VStr (lit "TypeError"))))).
Proof. split; reflexivity. Qed.


(** For other parts the two handlers differ: a number as text is converted
    to a string by the one and kept by the other, and a part that is null
    makes the one answer 500 and the other read the empty string. *)
Example gemini_texts_differ :
  gemini_text (fun _ => lit "5") (vendor_data [VObj [(lit "text", VNum (lit "5"))]])
  = Normal (VStr (lit "5"))
  /\ gemini0_text (vendor_data [VObj [(lit "text", VNum (lit "5"))]])
     = Normal (VNum (lit "5"))
  /\ gemini_text no_string (vendor_data [VNull]) = Throw TypeError
  /\ gemini0_text (vendor_data [VNull]) = Normal (VStr []).
Proof. repeat split; reflexivity. Qed.

Lemma opt_first_falsy (v : value) : truthy v = false -> opt_first v = VUndefined.
Proof.
  destruct v as [| | b | l | [|c s] | items | props]; simpl; intros H;
    (discriminate H || reflexivity).
Qed.

(** X17.  When the vendor answer has nothing at candidates, first
    candidate, content or parts (the path is undefined, null or otherwise
    falsy), both Gemini handlers read the empty text. *)
Theorem gemini_text_without_parts (ToString : value -> jsstring) (data : value) :
  readable data = true -> truthy (gemini_parts data) = false ->
  gemini_text ToString data = Normal (VStr [])
  /\ gemini0_text data = Normal (VStr []).
Proof.
  intros Hd Hp. unfold gemini_text, gemini0_text.
  rewrite (get_readable data _ Hd). cbn [bind]. fold (gemini_parts data).
  unfold or_else at 1. rewrite Hp. split; [reflexivity|].
  now rewrite (opt_first_falsy _ Hp).
Qed.

Lemma gemini_text_without_parts_witness :
  gemini_text no_string (VObj [(lit "candidates", VArr [VObj [(lit "finishReason", VStr (lit "SAFETY"))]])])
  = Normal (VStr [])
  /\ gemini0_text (VObj [(lit "candidates", VArr [VObj [(lit "finishReason", VStr (lit "SAFETY"))]])])
     = Normal (VStr []).
Proof.
  apply (gemini_text_without_parts no_string
           (VObj [(lit "candidates", VArr [VObj [(lit "finishReason", VStr (lit "SAFETY"))]])]));
    reflexivity.
Defined.

(** X18.  When the search for the user message throws (the body is null,
    or has no messages array, or an element read by the search is null),
    both Gemini handlers answer 500, the same whatever the vendor would
    answer: the vendor is not asked. *)
Theorem gemini_rejects_body_without_messages (body : value) (e : exn) :
  messages_find_user (get_own body (lit "messages")) = Throw e ->
  exists r,
    server_error r
    /\ forall ToString fetch_json,
         gemini_handler ToString fetch_json (post_of body) = Normal r
         /\ gemini0_handler ToString fetch_json (post_of body) = Normal r.
Proof.
  intros Hf. destruct (readable body) eqn:Hb.
  - destruct e as [message].
    exists (Response 500 [content_type_json; allow_origin] (Some (error_body message))).
    split; [repeat split; now exists message|].
    intros ToString fetch_json.
    rewrite gemini_handler_post, gemini0_handler_post.
    unfold gemini_try, gemini0_try, post_of. cbn [json bind].
    rewrite !(get_readable body _ Hb). cbn [bind]. rewrite Hf. split; reflexivity.
  - eexists. split; [|intros ToString fetch_json;
                      destruct body; try discriminate Hb; split; reflexivity].
    repeat split. eexists. reflexivity.
Qed.

Lemma gemini_rejects_body_without_messages_witness :
  exists r,
    server_error r
    /\ forall ToString fetch_json,
         gemini_handler ToString fetch_json (post_of (VObj [(lit "system", VStr (lit "s"))]))
         = Normal r
         /\ gemini0_handler ToString fetch_json (post_of (VObj [(lit "system", VStr (lit "s"))]))
            = Normal r.
Proof.
  apply (gemini_rejects_body_without_messages (VObj [(lit "system", VStr (lit "s"))]) TypeError).
  reflexivity.
Defined.

(** The Groq handler asks the vendor with the same body. *)
Example groq_accepts_body_without_messages :
  groq_handler no_string
    (fun _ payload => Normal (VObj [(lit "error", get_own payload (lit "messages"))]))
    (post_of (VObj [(lit "system", VStr (lit "s"))]))
  = Normal (Response 400 [content_type_json; allow_origin]
              (Some (error_body
                       (VArr [message_of (VStr (lit "system")) (VStr (lit "s"));
                              message_of (VStr (lit "user")) (VStr final_requirements)])))).
Proof. reflexivity. Qed.



(** An error whose double is zero is falsy, and the handlers go on to the
    text. *)
Example gemini_error_zero :
  gemini_handler no_string (fun _ _ => Normal (VObj [(lit "error", VNum (lit "1e-400"))]))
    post_request
  = Normal (Response 200 [content_type_json; allow_origin]
              (Some (text_envelope (VStr []))))
  /\ groq_handler no_string (fun _ _ => Normal (VObj [(lit "error", VNum (lit "1e-400"))]))
       post_request
     = Normal (fallback_response (VStr [])).
Proof. split; reflexivity. Qed.

(** A vendor answer that is [null] makes both Gemini handlers answer 500,
    and the Groq handler the fallback envelope around the empty text. *)
Example null_vendor_answer :
  gemini_handler no_string (fun _ _ => Normal VNull) post_request
  = Normal (Response 500 [content_type_json; allow_origin]
              (Some (error_body (VStr (lit "TypeError")))))
  /\ gemini0_handler no_string (fun _ _ => Normal VNull) post_request
     = Normal (Response 500 [content_type_json; allow_origin]
                 (Some (error_body (VStr (lit "TypeError")))))
  /\ groq_handler no_string (fun _ _ => Normal VNull) post_request
     = Normal (fallback_response (VStr [])).
Proof. repeat split; reflexivity. Qed.

(** ** A string literal through the whole cleaning *)

Lemma no_closer_no_trailing_comma (s : jsstring) :
  Forall (fun c => is_closer c = false) s -> trailing_comma_in s = false.
Proof.
  intros H. destruct (trailing_comma_in s) eqn:E; [|reflexivity].
  apply trailing_comma_in_spec in E.
  destruct E as (pre & ws & c & post & -> & _ & Hc).
  rewrite Forall_forall in H.
  rewrite <- Hc. apply H. apply in_or_app. right. right.
  apply in_or_app. right. now left.
Qed.

Lemma replace_separators_cons (c : char) (s : jsstring) :
  replace_separators (c :: s) = replace_separators [c] ++ replace_separators s.
Proof. change (c :: s) with ([c] ++ s). apply replace_separators_app. Qed.

Lemma replace_separators_char (c : char) :
  replace_separators [c]
  = if (c =? Ch.line_separator) || (c =? Ch.paragraph_separator)
    then escaped_n else [c].
Proof.
  unfold replace_separators, replace_char. simpl.
  destruct (N.eqb_spec c Ch.line_separator) as [-> | H1]; [reflexivity|].
  simpl. now destruct (N.eqb_spec c Ch.paragraph_separator).
Qed.

Lemma replace_separators_no_closer (body : jsstring) :
  Forall (fun c => is_closer c = false) body ->
  Forall (fun c => is_closer c = false) (replace_separators body).
Proof.
  induction 1 as [|c body Hc _ IH]; [constructor|].
  rewrite replace_separators_cons, replace_separators_char.
  apply Forall_app. split; [|exact IH].
  destruct ((c =? Ch.line_separator) || (c =? Ch.paragraph_separator));
    repeat constructor; assumption.
Qed.

Lemma sanitize_string_literal (body : jsstring) :
  Forall (fun c => is_closer c = false) body ->
  sanitizeCommonBreakers (string_literal body)
  = string_literal (replace_separators body).
Proof.
  intros H. rewrite sanitize_unfold. unfold string_literal.
  change (Ch.dquote :: body ++ [Ch.dquote]) with ([Ch.dquote] ++ body ++ [Ch.dquote]).
  rewrite !replace_separators_app.
  change (replace_separators [Ch.dquote]) with [Ch.dquote].
  apply remove_trailing_commas_absent, no_closer_no_trailing_comma.
  constructor; [reflexivity|].
  apply Forall_app. split; [now apply replace_separators_no_closer | repeat constructor].
Qed.

Lemma scan_cleaned (body : jsstring) :
  Forall repairable body ->
  forall o, scan (Scanner o true false) (replace_separators body)
            = Scanner (o ++ flat_map clean_raw_char body) true false.
Proof.
  induction 1 as [|c body Hc _ IH]; intros o.
  - simpl. now rewrite app_nil_r.
  - rewrite replace_separators_cons, scan_app, replace_separators_char.
    simpl flat_map. unfold clean_raw_char at 1.
    destruct ((c =? Ch.line_separator) || (c =? Ch.paragraph_separator)).
    + change (scan (Scanner o true false) escaped_n)
        with (Scanner ((o ++ [Ch.backslash]) ++ [110]) true false).
      rewrite IH, <- !app_assoc. reflexivity.
    + pose proof (scan_repairable [c] (Forall_cons _ Hc (Forall_nil _)) o) as E.
      simpl flat_map in E. rewrite app_nil_r in E.
      rewrite E, IH, <- app_assoc. reflexivity.
Qed.

Lemma lex_string_cleaned (body : jsstring) :
  Forall repairable body ->
  forall acc rest,
    lex_string (flat_map clean_raw_char body ++ Ch.dquote :: rest) acc
    = Some (rev acc
            ++ map read_back (filter (fun c => negb (c =? Ch.cr)) body), rest).
Proof.
  induction 1 as [|c body Hc _ IH]; intros acc rest.
  - simpl. now rewrite app_nil_r.
  - simpl flat_map. unfold clean_raw_char at 1.
    destruct ((c =? Ch.line_separator) || (c =? Ch.paragraph_separator)) eqn:Hs.
    + assert (Hr : (c =? Ch.cr) = false).
      { apply orb_true_iff in Hs.
        destruct Hs as [H | H]; apply N.eqb_eq in H; subst c; reflexivity. }
      cbn [filter]. rewrite Hr. cbn [negb map]. unfold read_back at 1. rewrite Hs.
      simpl. rewrite IH. simpl. now rewrite <- app_assoc.
    + pose proof (lex_string_repaired [c] (Forall_cons _ Hc (Forall_nil _)) acc
                    (flat_map clean_raw_char body ++ Ch.dquote :: rest)) as E.
      simpl flat_map in E. rewrite app_nil_r in E.
      assert (Step : forall tail acc',
                 lex_string (escape_raw_char c ++ tail) acc'
                 = lex_string tail
                     (rev (filter (fun x => negb (x =? Ch.cr)) [c]) ++ acc')).
      { intros tail acc'. destruct Hc as (Hq & Hb & Hc).
        unfold escape_raw_char.
        destruct (N.eqb_spec c Ch.lf) as [-> | Hl]; [reflexivity|].
        destruct (N.eqb_spec c Ch.cr) as [-> | Hr]; [reflexivity|].
        destruct (N.eqb_spec c Ch.tab) as [-> | Ht]; [reflexivity|].
        assert (H32 : 32 <= c)
          by (destruct Hc as [H | [H | [H | H]]]; [exact H | | |]; contradiction).
        simpl app. cbn [lex_string filter].
        destruct (N.eqb_spec c Ch.dquote); [contradiction|].
        destruct (N.eqb_spec c Ch.backslash); [contradiction|].
        destruct (N.ltb_spec c 32); [lia|].
        destruct (N.eqb_spec c Ch.cr); [contradiction | reflexivity]. }
      rewrite <- app_assoc, Step, IH.
      rewrite rev_app_distr, rev_involutive, <- app_assoc.
      cbn [filter]. destruct (c =? Ch.cr); cbn [negb map app].
      * reflexivity.
      * unfold read_back at 2. now rewrite Hs.
Qed.

(** X20.  A string literal whose body has no quote, no backslash, no
    closing brace or bracket and no control character but line feeds,
    carriage returns and tabs is made valid by the sanitizer followed by
    the scanner: the strict parser reads the result as the string of that
    body, without its carriage returns and with a line feed for each
    U+2028 and U+2029. *)
Theorem cleaning_repairs_string_literal (body : jsstring) :
  Forall repairable body ->
  Forall (fun c => is_closer c = false) body ->
  JSON_parse (escapeNewlinesInsideStrings
                (sanitizeCommonBreakers (string_literal body)))
  = Normal (VStr (map read_back (filter (fun c => negb (c =? Ch.cr)) body))).
Proof.
  intros Hr Hc. rewrite (sanitize_string_literal body Hc).
  assert (E : escapeNewlinesInsideStrings (string_literal (replace_separators body))
              = string_literal (flat_map clean_raw_char body)).
  { unfold escapeNewlinesInsideStrings, string_literal.
    change (scan scanner_init (Ch.dquote :: replace_separators body ++ [Ch.dquote]))
      with (scan (Scanner [Ch.dquote] true false)
              (replace_separators body ++ [Ch.dquote])).
    rewrite scan_app, (scan_cleaned body Hr). reflexivity. }
  rewrite E. apply JSON_parse_string_literal.
  now rewrite (lex_string_cleaned body Hr [] []).
Qed.

Lemma cleaning_repairs_string_literal_witness :
  JSON_parse (escapeNewlinesInsideStrings
                (sanitizeCommonBreakers
                   (string_literal (lit "a, " ++ [Ch.line_separator; Ch.cr; Ch.lf] ++ lit "b"))))
  = Normal (VStr (map read_back
                    (filter (fun c => negb (c =? Ch.cr))
                       (lit "a, " ++ [Ch.line_separator; Ch.cr; Ch.lf] ++ lit "b")))).
Proof.
  apply (cleaning_repairs_string_literal
           (lit "a, " ++ [Ch.line_separator; Ch.cr; Ch.lf] ++ lit "b")).
  - repeat constructor; try discriminate;
      first [ left; discriminate
            | right; left; reflexivity
            | right; right; left; reflexivity
            | right; right; right; reflexivity ].
  - repeat constructor.
Defined.
